(** * appbase: the execution priority queue

    A verification development for
    [include/appbase/execution_priority_queue.hpp].

    The header defines one class, [execution_priority_queue], a
    mutex-guarded [std::priority_queue] of type-erased handlers keyed by
    [(priority_, order_)], together with the nested [executor] handle that
    lets Boost.Asio submit completions into it.

    Modelling choices, all visible in the definitions below:
    - [int] priorities are [Z]; they are only ever compared.
    - [std::size_t] values are [Z] in [0, 2^w) for a word width [w]; the
      single arithmetic operation of the header, [--order_], is written
      with its wrap-around.
    - the sequential behaviour is modelled: every method body that touches
      [handlers_] or [order_] runs under [handlers_mutex_], so each is one
      atomic step; [execute()] runs outside the lock, which is what allows
      a callable to call back into the queue.
    - a callable is a finite command tree over what it can do to the queue
      (call [add], [execute_highest], [execute_all]), what the outside can
      see of it (a message), and how it ends (return or throw). *)

From stdpp Require Import base list sorting gmap strings.
From Stdlib Require Import ZArith Lia.

Local Open Scope Z_scope.

(** ** [struct priority] *)

Module priority.
Definition high : Z := 100.
Definition medium : Z := 50.
Definition low : Z := 10.
End priority.

(** ** Callables

    [template <typename Function>]: what [add] stores and [execute()]
    later calls as [function_()]. *)

Inductive Function : Type :=
| Return
| Throw
| Say (msg : string) (k : Function)
| Call_add (p : Z) (f : Function) (k : Function)
| Call_execute_highest (k_more k_none : Function)
| Call_execute_all (k : Function).

(** [Call_execute_highest k_more k_none] is
    [if (q.execute_highest()) k_more else k_none]. *)

Fixpoint cost (f : Function) : nat :=
  match f with
  | Return | Throw => 1
  | Say _ k => S (cost k)
  | Call_add _ g k => S (S (cost g + cost k))
  | Call_execute_highest k1 k2 => S (cost k1 + cost k2)
  | Call_execute_all k => S (cost k)
  end.

(** A callable that only speaks and returns. *)
Fixpoint plain (f : Function) : bool :=
  match f with
  | Return => true
  | Say _ k => plain k
  | _ => false
  end.

Fixpoint messages (f : Function) : list string :=
  match f with
  | Say s k => s :: messages k
  | _ => []
  end.

(** A callable that cannot end in an exception, nor can anything it
    submits. *)
Fixpoint nothrow (f : Function) : bool :=
  match f with
  | Return => true
  | Throw => false
  | Say _ k => nothrow k
  | Call_add _ g k => nothrow g && nothrow k
  | Call_execute_highest k1 k2 => nothrow k1 && nothrow k2
  | Call_execute_all k => nothrow k
  end.

(** A callable that calls back into [execute_highest] or [execute_all]
    in its own body (what it submits is not looked at: that runs later). *)
Fixpoint reenters (f : Function) : bool :=
  match f with
  | Return | Throw => false
  | Say _ k => reenters k
  | Call_add _ _ k => reenters k
  | Call_execute_highest _ _ => true
  | Call_execute_all _ => true
  end.

(** A callable whose own body ends in a throw: it speaks and submits,
    does not call back into the queue, and throws. *)
Fixpoint raises (f : Function) : bool :=
  match f with
  | Throw => true
  | Say _ k => raises k
  | Call_add _ _ k => raises k
  | _ => false
  end.

(** ** [queued_handler_base] and [queued_handler<Function>]

    The base class holds the key, the one derived class adds the stored
    callable; a [shared_ptr] to it is modelled by the value. *)

Module queued_handler.

Record t : Type := mk { priority_ : Z; order_ : Z; function_ : Function }.

(** [operator<]: [std::tie(a.priority_, a.order_) < std::tie(b.priority_, b.order_)],
    the lexicographic comparison of [std::tuple]. *)
Definition lt (a b : t) : bool :=
  (priority_ a <? priority_ b)
  || (negb (priority_ b <? priority_ a) && (order_ a <? order_ b)).

End queued_handler.

Abbreviation handler := queued_handler.t.

(** [struct ptr_less]: [*a < *b]. *)
Definition ptr_less (a b : handler) : bool := queued_handler.lt a b.

(** ** [std::priority_queue<T, std::deque<T>, Compare>]

    The standard container adaptor: [push] inserts, [top] is an element
    that is not less than any other, [pop] removes that element. The
    container is kept in insertion order; among several greatest elements
    the standard leaves the choice open, here the one inserted first is
    taken. *)

Module priority_queue.
Section adaptor.
Context {T : Type} (less : T → T → bool).

Definition empty (c : list T) : bool :=
  match c with [] => true | _ :: _ => false end.

Definition push (x : T) (c : list T) : list T := c ++ [x].

(** The greatest element of [x :: c] and what is left without it. *)
Fixpoint extract (x : T) (c : list T) : T * list T :=
  match c with
  | [] => (x, [])
  | y :: c' =>
      let (m, r) := extract y c' in
      if less x m then (m, x :: r) else (x, c)
  end.

Definition top (c : list T) : option T :=
  match c with [] => None | x :: c' => Some (fst (extract x c')) end.

Definition pop (c : list T) : list T :=
  match c with [] => [] | x :: c' => snd (extract x c') end.

End adaptor.
End priority_queue.

(** ** [class execution_priority_queue] *)

Record execution_priority_queue : Type := mkq {
  handlers_ : list handler;
  order_ : Z
}.

Abbreviation queue := execution_priority_queue.

(** What a run leaves behind for an observer. *)
Inductive event : Type :=
| Submitted (h : handler)
| Executed (h : handler)
| Said (msg : string).

Definition submitted (es : list event) : list handler :=
  omap (λ e, match e with Submitted h => Some h | _ => None end) es.

Definition executed (es : list event) : list handler :=
  omap (λ e, match e with Executed h => Some h | _ => None end) es.

Definition said (es : list event) : list string :=
  omap (λ e, match e with Said s => Some s | _ => None end) es.

(** How a call ends: with a value, or by an exception leaving it. *)
Inductive outcome (A : Type) : Type :=
| Returned (a : A)
| Thrown.
Arguments Returned {A} a.
Arguments Thrown {A}.

Definition result (A : Type) : Type := outcome A * queue * list event.

(** ** [class executor]

    [execution_priority_queue& context_] is a reference: the handle holds
    the address of a queue, not a queue. Queues live in a store indexed by
    address, a [positive]. *)

Record executor : Type := mk_executor {
  context_ : positive;
  priority_ : Z
}.

Section width.

(** [w] is the number of bits of [std::size_t]. *)
Variable w : positive.

Definition modulus : Z := 2 ^ Z.pos w.

(** [std::numeric_limits<size_t>::max()] *)
Definition size_max : Z := modulus - 1.

(** Conversion to [std::size_t]: unsigned arithmetic is modulo [2^w]. *)
Definition to_size_t (z : Z) : Z := z mod modulus.

(** A queue as its constructor leaves it. *)
Definition fresh : queue := {| handlers_ := []; order_ := size_max |}.

(** The handler [add] builds: [queued_handler<Function>(priority, --order_, function)]. *)
Definition new_handler (p : Z) (f : Function) (q : queue) : handler :=
  queued_handler.mk p (to_size_t (order_ q - 1)) f.

Definition add (p : Z) (f : Function) (q : queue) : queue :=
  let h := new_handler p f q in
  {| handlers_ := priority_queue.push h (handlers_ q);
     order_ := queued_handler.order_ h |}.

(** [get_top_handler]: "get top handler and pop it". *)
Definition get_top_handler (q : queue) : option (handler * queue) :=
  if priority_queue.empty (handlers_ q) then None
  else
    match priority_queue.top ptr_less (handlers_ q) with
    | None => None
    | Some h =>
        Some (h, {| handlers_ := priority_queue.pop ptr_less (handlers_ q);
                    order_ := order_ q |})
    end.

(** Sequencing of results: events accumulate, an exception cuts short. *)
Definition and_then {A B : Type} (r : option (result A))
    (k : A → queue → option (result B)) : option (result B) :=
  match r with
  | None => None
  | Some (Thrown, q, es) => Some (Thrown, q, es)
  | Some (Returned a, q, es) =>
      match k a q with
      | None => None
      | Some (o, q', es') => Some (o, q', es ++ es')
      end
  end.

Definition emit {A : Type} (e : event) (r : option (result A)) : option (result A) :=
  match r with
  | None => None
  | Some (o, q, es) => Some (o, q, e :: es)
  end.

(** [call], [execute_highest] and [execute_all] call each other: a
    callable may re-enter the queue, and the queue runs callables.
    [execute()] on the handler taken is [function_()], here [call] on the stored
    callable, with the queue as [get_top_handler] left it: the lock is
    released and the handler is out. The fuel bounds the depth of the
    recursion; [None] is "out of fuel". *)
Fixpoint call (fuel : nat) (f : Function) (q : queue) {struct fuel}
  : option (result unit) :=
  match fuel with
  | O => None
  | S n =>
      match f with
      | Return => Some (Returned (), q, [])
      | Throw => Some (Thrown, q, [])
      | Say s k => emit (Said s) (call n k q)
      | Call_add p g k =>
          emit (Submitted (new_handler p g q)) (call n k (add p g q))
      | Call_execute_highest k_more k_none =>
          and_then (execute_highest n q)
               (λ b q', call n (if b then k_more else k_none) q')
      | Call_execute_all k =>
          and_then (execute_all n q) (λ _ q', call n k q')
      end
  end
with execute_highest (fuel : nat) (q : queue) {struct fuel}
  : option (result bool) :=
  match fuel with
  | O => None
  | S n =>
      match get_top_handler q with
      | Some (h, q') =>
          emit (Executed h)
            (and_then (call n (queued_handler.function_ h) q')
                  (λ _ q'', Some (Returned (negb (priority_queue.empty (handlers_ q''))), q'', [])))
      | None =>
          Some (Returned (negb (priority_queue.empty (handlers_ q))), q, [])
      end
  end
with execute_all (fuel : nat) (q : queue) {struct fuel}
  : option (result unit) :=
  match fuel with
  | O => None
  | S n =>
      match get_top_handler q with
      | Some (h, q') =>
          emit (Executed h)
            (and_then (call n (queued_handler.function_ h) q')
                  (λ _ q'', execute_all n q''))
      | None => Some (Returned (), q, [])
      end
  end.

(** Everything still owed to pending handlers: one unit per handler and
    per command of its callable. *)
Definition weight (q : queue) : nat :=
  sum_list_with (λ h, S (cost (queued_handler.function_ h))) (handlers_ q).

(** [add] called once per element, in order. *)
Definition add_all (l : list (Z * Function)) (q : queue) : queue :=
  foldl (λ q pf, add pf.1 pf.2 q) q l.

(** *** The nested executor

    The submission operations act on the queue the executor refers to. A
    reference refers to a live queue; at an address that holds none the
    store is left as it is. *)

Definition context (ex : executor) : positive := context_ ex.

Definition dispatch (ex : executor) (f : Function)
    (σ : gmap positive queue) : gmap positive queue :=
  alter (add (priority_ ex) f) (context_ ex) σ.

Definition post (ex : executor) (f : Function)
    (σ : gmap positive queue) : gmap positive queue :=
  alter (add (priority_ ex) f) (context_ ex) σ.

Definition defer (ex : executor) (f : Function)
    (σ : gmap positive queue) : gmap positive queue :=
  alter (add (priority_ ex) f) (context_ ex) σ.

Definition on_work_started (ex : executor)
    (σ : gmap positive queue) : gmap positive queue := σ.

Definition on_work_finished (ex : executor)
    (σ : gmap positive queue) : gmap positive queue := σ.

(** [operator==]: [&context_ == &other.context_ && priority_ == other.priority_] *)
Definition executor_eq (a b : executor) : bool :=
  bool_decide (context_ a = context_ b) && (priority_ a =? priority_ b).

(** [operator!=]: [!operator==(other)] *)
Definition executor_ne (a b : executor) : bool := negb (executor_eq a b).

(** [wrap]: [bind_executor] of an executor on this queue at the given
    priority and the callable: the two as a pair. *)
Definition wrap (this : positive) (p : Z) (func : Function) : Function * executor :=
  (func, {| context_ := this; priority_ := p |}).

(** ** Properties of the model *)

(** The pending handlers are in order with the counter when [n] calls of
    [add] have been made since construction: the counter stands at
    [size_max - n], no pending handler is below it, and no two pending
    handlers share a sequence value. *)
Definition in_order (n : Z) (q : queue) : Prop :=
  0 ≤ n ≤ size_max
  ∧ order_ q = size_max - n
  ∧ NoDup (queued_handler.order_ <$> handlers_ q)
  ∧ Forall (λ h, order_ q ≤ queued_handler.order_ h ≤ size_max) (handlers_ q).

(** [a] is run before [b]: higher priority, or equal priority and larger
    sequence value. *)
Definition precedes (a b : handler) : Prop :=
  queued_handler.priority_ b < queued_handler.priority_ a
  ∨ (queued_handler.priority_ a = queued_handler.priority_ b
     ∧ queued_handler.order_ b < queued_handler.order_ a).

(** The events of running a callable that only speaks. *)
Definition run_events (h : handler) : list event :=
  Executed h :: (Said <$> messages (queued_handler.function_ h)).

(** The counter holds a [std::size_t]. *)
Definition representable (q : queue) : Prop := 0 ≤ order_ q < modulus.

(** The sequence values that [k] calls of [add] hand out when the counter
    stands at [c]. *)
Definition tickets (c : Z) (k : nat) : list Z :=
  (λ i, to_size_t (c - Z.of_nat i)) <$> seq 1 k.

(** The books of a run from [q] to [q'] with events [es]: what was pending
    or submitted is what was executed or is still pending, each handler
    counted as often as it occurs; the submitted handlers took the next
    sequence values in turn, and the counter moved by their number. *)
Definition accounts (q : queue) (es : list event) (q' : queue) : Prop :=
  handlers_ q ++ submitted es ≡ₚ executed es ++ handlers_ q'
  ∧ queued_handler.order_ <$> submitted es
    = tickets (order_ q) (length (submitted es))
  ∧ order_ q' = to_size_t (order_ q - Z.of_nat (length (submitted es))).

(** The handlers that calls of [add], one per element of [l], build when
    the counter stands at [c]. *)
Definition built (c : Z) (l : list (Z * Function)) : list handler :=
  imap (λ i pf, queued_handler.mk pf.1 (to_size_t (c - (Z.of_nat i + 1))) pf.2) l.

(** The same on a fresh queue, by position in [l] (from 0): element [i]
    gets sequence value [size_max - (i + 1)]. *)
Definition priority_at (l : list (Z * Function)) (i : nat) : Z :=
  (default (0, Return) (l !! i)).1.

Definition function_at (l : list (Z * Function)) (i : nat) : Function :=
  (default (0, Return) (l !! i)).2.

Definition handler_at (l : list (Z * Function)) (i : nat) : handler :=
  queued_handler.mk (priority_at l i) (size_max - (Z.of_nat i + 1)) (function_at l i).

Definition enqueued (l : list (Z * Function)) : list handler :=
  handler_at l <$> seq 0 (length l).

(** Element [i] of [l] is due before element [j]: higher priority, or the
    same priority and enqueued earlier. *)
Definition due_before (l : list (Z * Function)) (i j : nat) : Prop :=
  priority_at l j < priority_at l i
  ∨ (priority_at l i = priority_at l j ∧ (i < j)%nat).

(** Where the pending handlers of [q'] come from, after a run from [q]
    with events [es]: first handlers that were pending in [q], in the
    order they had there, then handlers submitted during the run, in the
    order of submission. A position of the list stands for one handler
    object; [push] appends a position and [pop] removes one. *)
Definition descends (q : queue) (es : list event) (q' : queue) : Prop :=
  ∃ s1 s2, handlers_ q' = s1 ++ s2
           ∧ s1 `sublist_of` handlers_ q
           ∧ s2 `sublist_of` submitted es.

(** One round of a driver: submit a callable that returns, run it (two
    units of fuel are enough for that). *)
Definition round (q : queue) : queue :=
  match execute_highest 2 (add priority.low Return q) with
  | Some (_, q', _) => q'
  | None => q
  end.

(** A driver that calls [execute_highest] [k] times in a row. *)
Fixpoint polls (fuel k : nat) (q : queue) : option (result unit) :=
  match k with
  | O => Some (Returned (), q, [])
  | S k' => and_then (execute_highest fuel q) (λ _ q', polls fuel k' q')
  end.

(** The queue after [size_max] rounds of a driver on a fresh queue. *)
Definition exhausted : queue := Nat.iter (Z.to_nat size_max) round fresh.

(** *** Arithmetic of [std::size_t] *)

Lemma modulus_ge_2 : 2 ≤ modulus.
Proof.
  unfold modulus.
  change 2 with (2 ^ 1) at 1.
  apply Z.pow_le_mono_r; lia.
Qed.

Lemma to_size_t_range z : 0 ≤ to_size_t z < modulus.
Proof. unfold to_size_t. apply Z.mod_pos_bound. pose proof modulus_ge_2. lia. Qed.

Lemma to_size_t_small z : 0 ≤ z < modulus → to_size_t z = z.
Proof. intros. unfold to_size_t. by apply Z.mod_small. Qed.

Lemma to_size_t_sub z a b : to_size_t (to_size_t (z - a) - b) = to_size_t (z - (a + b)).
Proof.
  unfold to_size_t.
  rewrite Zminus_mod_idemp_l. f_equal. lia.
Qed.

Lemma to_size_t_underflow : to_size_t (0 - 1) = size_max.
Proof.
  unfold to_size_t, size_max.
  pose proof modulus_ge_2.
  replace (0 - 1) with (modulus - 1 + (-1) * modulus) by lia.
  rewrite Z.mod_add by lia.
  apply Z.mod_small. lia.
Qed.

(** *** The order on handlers *)

Lemma lt_spec a b : queued_handler.lt a b = true ↔ precedes b a.
Proof.
  unfold queued_handler.lt, precedes.
  rewrite orb_true_iff, andb_true_iff, negb_true_iff, !Z.ltb_lt, Z.ltb_ge.
  lia.
Qed.

Lemma lt_asym a b : ptr_less a b = true → ptr_less b a = false.
Proof.
  unfold ptr_less. intros H. apply not_true_is_false.
  revert H. rewrite !lt_spec. unfold precedes. lia.
Qed.

Lemma lt_negtrans a b c :
  ptr_less a b = false → ptr_less b c = false → ptr_less a c = false.
Proof.
  unfold ptr_less. intros Hab Hbc. apply not_true_is_false.
  apply not_true_iff_false in Hab, Hbc.
  revert Hab Hbc. rewrite !lt_spec. unfold precedes. lia.
Qed.

Lemma precedes_asym a b : precedes a b → precedes b a → False.
Proof. unfold precedes. lia. Qed.

(** Two handlers with different sequence values are strictly ordered. *)
Lemma precedes_total a b :
  queued_handler.order_ a ≠ queued_handler.order_ b →
  precedes a b ∨ precedes b a.
Proof. unfold precedes. lia. Qed.

Lemma not_lt_precedes a b :
  queued_handler.order_ a ≠ queued_handler.order_ b →
  ptr_less a b = false → precedes a b.
Proof.
  intros Hne Hlt. destruct (precedes_total a b Hne) as [|Hba]; [done|].
  apply lt_spec in Hba. unfold ptr_less in Hlt. congruence.
Qed.

(** *** The container adaptor *)

Lemma extract_perm x c :
  x :: c ≡ₚ (priority_queue.extract ptr_less x c).1
             :: (priority_queue.extract ptr_less x c).2.
Proof.
  revert x. induction c as [|y c IH]; intros x; simpl; [done|].
  specialize (IH y).
  destruct (priority_queue.extract ptr_less y c) as [m r]; simpl in *.
  destruct (ptr_less x m); simpl; [|done].
  rewrite IH. apply Permutation_swap.
Qed.

Lemma extract_greatest x c :
  Forall (λ y, ptr_less (priority_queue.extract ptr_less x c).1 y = false)
         (x :: c).
Proof.
  revert x. induction c as [|y c IH]; intros x; simpl.
  - repeat constructor. destruct (ptr_less x x) eqn:E; [|done].
    by rewrite (lt_asym _ _ E) in E.
  - specialize (IH y). pose proof (extract_perm y c) as Hp.
    destruct (priority_queue.extract ptr_less y c) as [m r]; simpl in *.
    destruct (ptr_less x m) eqn:E; simpl.
    + constructor; [by apply lt_asym|done].
    + constructor.
      * destruct (ptr_less x x) eqn:E'; [|done].
        by rewrite (lt_asym _ _ E') in E'.
      * eapply Forall_impl; [exact IH|]. simpl. intros z Hz.
        by eapply lt_negtrans.
Qed.

(** What [get_top_handler] returns, in one statement: nothing on an empty
    queue; otherwise a pending handler that no pending handler is above,
    removed from the queue, the counter left alone. *)
Lemma get_top_handler_None q :
  get_top_handler q = None ↔ handlers_ q = [].
Proof.
  unfold get_top_handler. destruct (handlers_ q); simpl; split; done.
Qed.

Lemma get_top_handler_Some q h q' :
  get_top_handler q = Some (h, q') →
  handlers_ q ≡ₚ h :: handlers_ q'
  ∧ order_ q' = order_ q
  ∧ Forall (λ y, ptr_less h y = false) (handlers_ q).
Proof.
  unfold get_top_handler. destruct (handlers_ q) as [|x c]; simpl; [done|].
  intros [= <- <-]; simpl. split_and!; [apply extract_perm|done|apply extract_greatest].
Qed.

Lemma get_top_handler_is_Some q :
  handlers_ q ≠ [] → is_Some (get_top_handler q).
Proof.
  unfold get_top_handler. destruct (handlers_ q); simpl; [done|eauto].
Qed.

Lemma empty_spec (l : list handler) : priority_queue.empty l = true ↔ l = [].
Proof. by destruct l. Qed.

Lemma weight_pop q h q' :
  get_top_handler q = Some (h, q') →
  weight q = S (cost (queued_handler.function_ h) + weight q').
Proof.
  intros (Hp & _ & _)%get_top_handler_Some. unfold weight.
  by rewrite Hp.
Qed.

Lemma weight_add p f q : weight (add p f q) = (weight q + S (cost f))%nat.
Proof.
  unfold weight, add, priority_queue.push; simpl.
  rewrite sum_list_with_app; simpl. lia.
Qed.

Lemma cost_pos f : (1 ≤ cost f)%nat.
Proof. destruct f; simpl; lia. Qed.

(** *** Sequencing *)

Lemma emit_Some {A} e (r : option (result A)) o q es :
  emit e r = Some (o, q, es) ↔ ∃ es', r = Some (o, q, es') ∧ es = e :: es'.
Proof.
  unfold emit. destruct r as [[[o1 q1] es1]|]; split.
  - intros [= <- <- <-]. eauto.
  - intros (es' & [= <- <- <-] & ->). done.
  - done.
  - intros (? & ? & _). done.
Qed.

Lemma and_then_Some {A B} (r : option (result A)) (k : A → queue → option (result B)) o q es :
  and_then r k = Some (o, q, es) ↔
    (r = Some (Thrown, q, es) ∧ o = Thrown)
    ∨ (∃ a q1 es1 es2, r = Some (Returned a, q1, es1)
         ∧ k a q1 = Some (o, q, es2) ∧ es = es1 ++ es2).
Proof.
  unfold and_then. destruct r as [[[[a|] q1] es1]|].
  - destruct (k a q1) as [[[o2 q2] es2]|] eqn:E; split.
    + intros [= <- <- <-]. right. by exists a, q1, es1, es2.
    + intros [[[=] _]|(a' & q1' & es1' & es2' & [= <- <- <-] & Hk & ->)].
      rewrite E in Hk. by injection Hk as -> -> ->.
    + done.
    + intros [[[=] _]|(a' & q1' & es1' & es2' & [= <- <- <-] & Hk & ->)].
      congruence.
  - split.
    + intros [= <- <- <-]. by left.
    + intros [[[= <- <-] ->]|(a' & q1' & es1' & es2' & [=] & _)]. done.
  - split; [done|]. intros [[[=] _]|(a' & q1' & es1' & es2' & [=] & _)].
Qed.

(** *** Termination

    A callable is a finite tree, so every run ends: fuel above the weight
    of the queue (plus the cost of the callable being run) is enough, and
    a run never leaves more weight than it found. *)
Lemma runs_terminate n :
  (∀ f q, (cost f + weight q ≤ n)%nat →
     ∃ o q' es, call n f q = Some (o, q', es)
                ∧ (weight q' ≤ cost f + weight q)%nat)
  ∧ (∀ q, (weight q < n)%nat →
     ∃ o q' es, execute_highest n q = Some (o, q', es)
                ∧ (weight q' ≤ weight q)%nat)
  ∧ (∀ q, (weight q < n)%nat →
     ∃ o q' es, execute_all n q = Some (o, q', es)
                ∧ (weight q' ≤ weight q)%nat).
Proof.
  induction n as [|n (IHc & IHh & IHa)].
  { split_and!; intros; [pose proof (cost_pos f)|..]; lia. }
  split_and!.
  - intros f q Hn. destruct f as [| |s k|p g k|k1 k2|k]; simpl in Hn |- *.
    + eexists _, _, _. split; [done|lia].
    + eexists _, _, _. split; [done|lia].
    + destruct (IHc k q) as (o & q' & es & -> & Hw); [lia|].
      eexists _, _, _. split; [done|lia].
    + destruct (IHc k (add p g q)) as (o & q' & es & -> & Hw).
      { rewrite weight_add. lia. }
      rewrite weight_add in Hw.
      eexists _, _, _. split; [done|lia].
    + pose proof (cost_pos k1). pose proof (cost_pos k2).
      destruct (IHh q) as ([b|] & q1 & es1 & -> & Hw1); [lia| |]; simpl.
      * destruct (IHc (if b then k1 else k2) q1) as (o & q' & es & -> & Hw).
        { destruct b; lia. }
        eexists _, _, _. split; [done|]. destruct b; lia.
      * eexists _, _, _. split; [done|lia].
    + pose proof (cost_pos k).
      destruct (IHa q) as ([[]|] & q1 & es1 & -> & Hw1); [lia| |]; simpl.
      * destruct (IHc k q1) as (o & q' & es & -> & Hw); [lia|].
        eexists _, _, _. split; [done|lia].
      * eexists _, _, _. split; [done|lia].
  - intros q Hn. simpl. destruct (get_top_handler q) as [[h q0]|] eqn:E.
    + apply weight_pop in E.
      destruct (IHc (queued_handler.function_ h) q0) as ([[]|] & q1 & es1 & -> & Hw1);
        [lia| |]; simpl; eexists _, _, _; (split; [done|lia]).
    + eexists _, _, _. split; [done|lia].
  - intros q Hn. simpl. destruct (get_top_handler q) as [[h q0]|] eqn:E.
    + apply weight_pop in E.
      destruct (IHc (queued_handler.function_ h) q0) as ([[]|] & q1 & es1 & -> & Hw1);
        [lia| |]; simpl.
      * destruct (IHa q1) as (o & q' & es & -> & Hw); [lia|].
        eexists _, _, _. split; [done|lia].
      * eexists _, _, _. split; [done|lia].
    + eexists _, _, _. split; [done|lia].
Qed.

Lemma execute_all_terminates n q :
  (weight q < n)%nat → is_Some (execute_all n q).
Proof.
  intros H. destruct (runs_terminate n) as (_ & _ & Ha).
  destruct (Ha q H) as (o & q' & es & -> & _). eauto.
Qed.

Lemma execute_highest_terminates n q :
  (weight q < n)%nat → is_Some (execute_highest n q).
Proof.
  intros H. destruct (runs_terminate n) as (_ & Hh & _).
  destruct (Hh q H) as (o & q' & es & -> & _). eauto.
Qed.

(** *** Bookkeeping of runs *)

Lemma tickets_app c k1 k2 :
  tickets c (k1 + k2) = tickets c k1 ++ tickets (to_size_t (c - Z.of_nat k1)) k2.
Proof.
  unfold tickets. rewrite seq_app, fmap_app. f_equal.
  rewrite (Nat.add_comm 1 k1), <- (fmap_add_seq k1 1 k2), <- list_fmap_compose.
  apply list_fmap_ext. intros _ i _. simpl.
  rewrite to_size_t_sub. f_equal. lia.
Qed.

Lemma accounts_refl q : representable q → accounts q [] q.
Proof.
  intros Hq. unfold accounts; simpl. split_and!; [by rewrite app_nil_r|done|].
  change (Z.of_nat 0) with 0. rewrite Z.sub_0_r.
  symmetry. by apply to_size_t_small.
Qed.

Lemma accounts_trans q es1 q1 es2 q2 :
  accounts q es1 q1 → accounts q1 es2 q2 → accounts q (es1 ++ es2) q2.
Proof.
  intros (Hp1 & Ht1 & Ho1) (Hp2 & Ht2 & Ho2). unfold accounts, submitted, executed in *.
  rewrite !omap_app, !length_app, fmap_app. split_and!.
  - rewrite (assoc_L (++)), Hp1, <- !(assoc_L (++)), Hp2. done.
  - rewrite tickets_app, Ht1, Ht2, Ho1. done.
  - rewrite Ho2, Ho1, to_size_t_sub. f_equal. lia.
Qed.

Lemma accounts_add p f q :
  accounts q [Submitted (new_handler p f q)] (add p f q).
Proof.
  unfold accounts, add, priority_queue.push; simpl. done.
Qed.

Lemma accounts_pop q h q' :
  representable q → get_top_handler q = Some (h, q') → accounts q [Executed h] q'.
Proof.
  intros Hq (Hp & Ho & _)%get_top_handler_Some. unfold accounts; simpl.
  split_and!; [by rewrite app_nil_r|done|].
  rewrite Ho. change (Z.of_nat 0) with 0. rewrite Z.sub_0_r.
  symmetry. by apply to_size_t_small.
Qed.

Lemma accounts_said s q : representable q → accounts q [Said s] q.
Proof. intros Hq. apply (accounts_refl q Hq). Qed.

Lemma accounts_representable q es q' : accounts q es q' → representable q'.
Proof. intros (_ & _ & Ho). unfold representable. rewrite Ho. apply to_size_t_range. Qed.

(** Whatever the callables do, every run keeps the books; [execute_highest]
    returns whether handlers are pending when it returns, and
    [execute_all] returns with none pending. *)
Lemma runs_account n :
  (∀ f q o q' es, representable q →
     call n f q = Some (o, q', es) → accounts q es q')
  ∧ (∀ q o q' es, representable q →
     execute_highest n q = Some (o, q', es) →
     accounts q es q'
     ∧ ∀ b, o = Returned b → b = negb (priority_queue.empty (handlers_ q')))
  ∧ (∀ q o q' es, representable q →
     execute_all n q = Some (o, q', es) →
     accounts q es q' ∧ (o = Returned () → handlers_ q' = [])).
Proof.
  induction n as [|n (IHc & IHh & IHa)]; [split_and!; intros; done|].
  split_and!.
  - intros f q o q' es Hq. destruct f as [| |s k|p g k|k1 k2|k]; simpl.
    + intros [= <- <- <-]. by apply accounts_refl.
    + intros [= <- <- <-]. by apply accounts_refl.
    + intros (es' & H & ->)%emit_Some.
      apply (accounts_trans q [Said s] q); [by apply accounts_said|by eapply IHc].
    + intros (es' & H & ->)%emit_Some.
      apply (accounts_trans q [_] (add p g q)); [apply accounts_add|].
      eapply IHc; [|done]. eapply accounts_representable, accounts_add.
    + intros [[H ->]|(b & q1 & es1 & es2 & H1 & H2 & ->)]%and_then_Some.
      * by eapply IHh.
      * apply (IHh _ _ _ _ Hq) in H1 as [H1 _].
        eapply accounts_trans; [done|].
        eapply IHc; [|done]. by eapply accounts_representable.
    + intros [[H ->]|(b & q1 & es1 & es2 & H1 & H2 & ->)]%and_then_Some.
      * by eapply IHa.
      * apply (IHa _ _ _ _ Hq) in H1 as [H1 _].
        eapply accounts_trans; [done|].
        eapply IHc; [|done]. by eapply accounts_representable.
  - intros q o q' es Hq. simpl.
    destruct (get_top_handler q) as [[h q0]|] eqn:E.
    + pose proof (accounts_pop _ _ _ Hq E) as Hpop.
      pose proof (accounts_representable _ _ _ Hpop) as Hq0.
      intros (es' & [[H ->]|(b & q1 & es1 & es2 & H1 & H2 & ->)]%and_then_Some & ->)%emit_Some.
      * split; [|done]. apply (accounts_trans q [_] q0); [done|by eapply IHc].
      * injection H2 as <- <- <-. rewrite app_nil_r. split.
        -- apply (accounts_trans q [_] q0); [done|by eapply IHc].
        -- by intros ? [= <-].
    + intros [= <- <- <-]. split; [by apply accounts_refl|by intros ? [= <-]].
  - intros q o q' es Hq. simpl.
    destruct (get_top_handler q) as [[h q0]|] eqn:E.
    + pose proof (accounts_pop _ _ _ Hq E) as Hpop.
      pose proof (accounts_representable _ _ _ Hpop) as Hq0.
      intros (es' & [[H ->]|(b & q1 & es1 & es2 & H1 & H2 & ->)]%and_then_Some & ->)%emit_Some.
      * split; [|done]. apply (accounts_trans q [_] q0); [done|by eapply IHc].
      * pose proof (IHc _ _ _ _ _ Hq0 H1) as Hc.
        destruct (IHa _ _ _ _ (accounts_representable _ _ _ Hc) H2) as [Ha He].
        split; [|done].
        apply (accounts_trans q [_] q0); [done|]. by eapply accounts_trans.
    + intros [= <- <- <-]. split; [by apply accounts_refl|].
      intros _. by apply get_top_handler_None.
Qed.

(** *** The counter and the pending handlers *)

Lemma tickets_no_wrap c k :
  0 ≤ c < modulus → Z.of_nat k ≤ c →
  tickets c k = (λ i, c - Z.of_nat i) <$> seq 1 k.
Proof.
  intros Hc Hk. unfold tickets. apply list_fmap_ext. intros j i Hi.
  apply lookup_seq in Hi as [-> Hi]. apply to_size_t_small. lia.
Qed.

Lemma tickets_bounds c k :
  0 ≤ c < modulus → Z.of_nat k ≤ c →
  Forall (λ o, c - Z.of_nat k ≤ o < c) (tickets c k).
Proof.
  intros Hc Hk. rewrite tickets_no_wrap by done.
  apply Forall_fmap, Forall_forall. intros i [? ?]%elem_of_seq. simpl. lia.
Qed.

Lemma tickets_NoDup c k :
  0 ≤ c < modulus → Z.of_nat k ≤ c → NoDup (tickets c k).
Proof.
  intros Hc Hk. rewrite tickets_no_wrap by done.
  apply NoDup_fmap_2; [|apply NoDup_seq].
  intros i j Hij. lia.
Qed.

Lemma size_max_representable : 0 ≤ size_max < modulus.
Proof. unfold size_max. pose proof modulus_ge_2. lia. Qed.

Lemma in_order_representable n q : in_order n q → representable q.
Proof.
  intros (Hn & Ho & _). unfold representable, size_max in *.
  pose proof modulus_ge_2. lia.
Qed.

Lemma in_order_fresh : in_order 0 fresh.
Proof.
  unfold in_order, fresh; simpl. pose proof size_max_representable.
  split_and!; [lia|lia|lia|constructor|constructor].
Qed.

(** While the counter does not wrap, what is pending or was submitted
    carries pairwise different sequence values. *)
Lemma in_order_accounts_NoDup n q es q' :
  in_order n q → accounts q es q' →
  n + Z.of_nat (length (submitted es)) ≤ size_max →
  NoDup (queued_handler.order_ <$> (executed es ++ handlers_ q')).
Proof.
  intros (Hn & Ho & Hnd & Hb) (Hp & Ht & _) Hk.
  pose proof size_max_representable as Hm.
  rewrite <- Hp, fmap_app, Ht. apply NoDup_app. split_and!.
  - done.
  - intros o (h & -> & Hh)%list_elem_of_fmap Ho'.
    rewrite Forall_forall in Hb. specialize (Hb h Hh).
    pose proof (tickets_bounds (order_ q) (length (submitted es))) as Hbt.
    rewrite Forall_forall in Hbt. specialize (Hbt ltac:(lia) ltac:(lia) _ Ho'). lia.
  - apply tickets_NoDup; lia.
Qed.

Lemma in_order_accounts n q es q' :
  in_order n q → accounts q es q' →
  n + Z.of_nat (length (submitted es)) ≤ size_max →
  in_order (n + Z.of_nat (length (submitted es))) q'.
Proof.
  intros Hin Hacc Hk.
  pose proof (in_order_accounts_NoDup _ _ _ _ Hin Hacc Hk) as Hnd'.
  destruct Hin as (Hn & Ho & Hnd & Hb). destruct Hacc as (Hp & Ht & Ho').
  pose proof size_max_representable as Hm.
  assert (order_ q' = size_max - (n + Z.of_nat (length (submitted es)))) as Hq'.
  { rewrite Ho', Ho. rewrite to_size_t_small; lia. }
  unfold in_order. split_and!; [lia|lia|done| |].
  - rewrite fmap_app in Hnd'. by apply NoDup_app in Hnd' as (_ & _ & ?).
  - assert (Forall (λ h, order_ q' ≤ queued_handler.order_ h ≤ size_max)
                   (handlers_ q ++ submitted es)) as Hall.
    { apply Forall_app. split.
      - eapply Forall_impl; [exact Hb|]. simpl. intros h ?. lia.
      - pose proof (tickets_bounds (order_ q) (length (submitted es))
                      ltac:(lia) ltac:(lia)) as Hbt.
        rewrite <- Ht in Hbt. apply Forall_fmap in Hbt.
        eapply Forall_impl; [exact Hbt|]. simpl. intros h ?. lia. }
    rewrite Hp in Hall. by apply Forall_app in Hall as [_ ?].
Qed.

Lemma in_order_add n q p f :
  in_order n q → n + 1 ≤ size_max → in_order (n + 1) (add p f q).
Proof.
  intros Hin Hn.
  apply (in_order_accounts n q [Submitted (new_handler p f q)]);
    [done|apply accounts_add|simpl; lia].
Qed.

(** Pending handlers in order are strictly ordered among themselves, and
    the one [get_top_handler] takes is above every other. *)
Lemma top_precedes q h q' :
  NoDup (queued_handler.order_ <$> handlers_ q) →
  get_top_handler q = Some (h, q') →
  Forall (precedes h) (handlers_ q').
Proof.
  intros Hnd (Hp & _ & Hgt)%get_top_handler_Some.
  rewrite Hp in Hnd, Hgt. simpl in Hnd.
  apply NoDup_cons in Hnd as [Hnotin _]. apply Forall_cons in Hgt as [_ Hgt].
  rewrite Forall_forall in Hgt |- *. intros y Hy.
  apply not_lt_precedes; [|by apply Hgt].
  intros Heq. apply Hnotin. rewrite Heq. by apply list_elem_of_fmap_2.
Qed.

(** *** Enqueuing a list *)

Lemma built_cons c pf l :
  built c (pf :: l)
  = queued_handler.mk pf.1 (to_size_t (c - 1)) pf.2 :: built (to_size_t (c - 1)) l.
Proof.
  unfold built. rewrite imap_cons. f_equal.
  apply imap_ext. intros i x _. simpl. f_equal.
  rewrite to_size_t_sub. f_equal. lia.
Qed.

Lemma built_orders c l :
  queued_handler.order_ <$> built c l = tickets c (length l).
Proof.
  revert c. induction l as [|pf l IH]; intros c; [done|].
  rewrite built_cons, fmap_cons, IH. simpl length.
  change (S (length l)) with (1 + length l)%nat. by rewrite tickets_app.
Qed.

Lemma add_all_spec l q :
  representable q →
  handlers_ (add_all l q) = handlers_ q ++ built (order_ q) l
  ∧ order_ (add_all l q) = to_size_t (order_ q - Z.of_nat (length l)).
Proof.
  revert q. induction l as [|[p f] l IH]; intros q Hq.
  - simpl. rewrite app_nil_r. split; [done|].
    change (Z.of_nat 0) with 0. rewrite Z.sub_0_r. symmetry. by apply to_size_t_small.
  - change (add_all ((p, f) :: l) q) with (add_all l (add p f q)).
    destruct (IH (add p f q)) as [Hh Ho]; [apply to_size_t_range|].
    rewrite Hh, Ho, built_cons. unfold add, new_handler, priority_queue.push; simpl.
    split; [by rewrite <- (assoc_L (++))|].
    rewrite to_size_t_sub. f_equal. lia.
Qed.

Lemma built_fresh l :
  Z.of_nat (length l) ≤ size_max → built size_max l = enqueued l.
Proof.
  intros Hl. pose proof size_max_representable.
  apply list_eq. intros i. unfold built, enqueued.
  rewrite list_lookup_imap, list_lookup_fmap.
  destruct (l !! i) as [pf|] eqn:E; simpl.
  - pose proof (lookup_lt_Some _ _ _ E) as Hi.
    rewrite lookup_seq_lt by done. simpl.
    unfold handler_at, priority_at, function_at. rewrite E. simpl.
    rewrite to_size_t_small by lia. done.
  - apply lookup_ge_None in E. by rewrite lookup_seq_ge.
Qed.

(** *** Callables that only speak *)

Lemma call_plain f : ∀ n q,
  plain f = true → (cost f ≤ n)%nat →
  call n f q = Some (Returned (), q, Said <$> messages f).
Proof.
  induction f as [| |s k IH| | |]; intros n q Hp Hn; try done.
  - destruct n; [simpl in Hn; lia|done].
  - destruct n; [simpl in Hn; lia|]. simpl in *.
    rewrite IH by (done || lia). done.
Qed.

Lemma executed_run_events tr : executed (tr ≫= run_events) = tr.
Proof.
  induction tr as [|h tr IH]; [done|].
  rewrite bind_cons. unfold executed in *. rewrite omap_app, IH.
  unfold run_events at 1. simpl. f_equal.
  induction (messages (queued_handler.function_ h)); done.
Qed.

Lemma submitted_run_events tr : submitted (tr ≫= run_events) = [].
Proof.
  induction tr as [|h tr IH]; [done|].
  rewrite bind_cons. unfold submitted in *. rewrite omap_app, IH.
  unfold run_events at 1. simpl.
  induction (messages (queued_handler.function_ h)); done.
Qed.

(** Draining a queue of callables that only speak: they run in the order
    of the key, each once. *)
Lemma drain_plain n : ∀ q,
  (weight q < n)%nat →
  Forall (λ h, plain (queued_handler.function_ h) = true) (handlers_ q) →
  NoDup (queued_handler.order_ <$> handlers_ q) →
  ∃ tr, execute_all n q
        = Some (Returned (), {| handlers_ := []; order_ := order_ q |},
                tr ≫= run_events)
        ∧ tr ≡ₚ handlers_ q
        ∧ StronglySorted precedes tr.
Proof.
  induction n as [|n IH]; intros q Hw Hpl Hnd; [lia|].
  simpl. destruct (get_top_handler q) as [[h q0]|] eqn:E.
  - pose proof (top_precedes _ _ _ Hnd E) as Htop.
    pose proof (weight_pop _ _ _ E) as Hwq.
    pose proof (get_top_handler_Some _ _ _ E) as (Hperm & Ho & _).
    rewrite Hperm in Hpl, Hnd. apply Forall_cons in Hpl as [Hh Hpl].
    rewrite fmap_cons in Hnd. apply NoDup_cons in Hnd as [_ Hnd].
    rewrite (call_plain _ n q0 Hh) by lia. simpl.
    destruct (IH q0) as (tr & -> & Htr & Hs); [lia|done|done|].
    exists (h :: tr). rewrite Ho. split_and!.
    + done.
    + by rewrite Hperm, Htr.
    + constructor; [done|]. by rewrite Htr.
  - apply get_top_handler_None in E. exists []. split_and!.
    + destruct q; simpl in *; by subst.
    + by rewrite E.
    + constructor.
Qed.

Lemma add_all_fresh l :
  Z.of_nat (length l) ≤ size_max →
  add_all l fresh
  = {| handlers_ := enqueued l; order_ := size_max - Z.of_nat (length l) |}.
Proof.
  intros Hl. pose proof size_max_representable as Hm.
  destruct (add_all_spec l fresh Hm) as [Hh Ho]. simpl in Hh, Ho.
  rewrite built_fresh in Hh by done. rewrite to_size_t_small in Ho by lia.
  destruct (add_all l fresh); simpl in *; by subst.
Qed.

Lemma enqueued_orders_NoDup l :
  Z.of_nat (length l) ≤ size_max →
  NoDup (queued_handler.order_ <$> enqueued l).
Proof.
  intros Hl. unfold enqueued. rewrite <- list_fmap_compose.
  apply NoDup_fmap_2; [|apply NoDup_seq].
  intros i j Hij. simpl in Hij. lia.
Qed.

Lemma enqueued_plain l :
  Forall (λ pf, plain pf.2 = true) l →
  Forall (λ h, plain (queued_handler.function_ h) = true) (enqueued l).
Proof.
  intros Hl. unfold enqueued. apply Forall_fmap, Forall_forall.
  intros i [_ Hi]%elem_of_seq. simpl. unfold function_at.
  destruct (l !! i) as [pf|] eqn:E; [|done]. simpl.
  rewrite Forall_forall in Hl. eapply Hl, list_elem_of_lookup_2, E.
Qed.

(** The same with [execute_highest] called once per pending handler. *)
Lemma polls_plain fuel k : ∀ q,
  length (handlers_ q) = k →
  (weight q < fuel)%nat →
  Forall (λ h, plain (queued_handler.function_ h) = true) (handlers_ q) →
  NoDup (queued_handler.order_ <$> handlers_ q) →
  ∃ tr, polls fuel k q
        = Some (Returned (), {| handlers_ := []; order_ := order_ q |},
                tr ≫= run_events)
        ∧ tr ≡ₚ handlers_ q
        ∧ StronglySorted precedes tr.
Proof.
  induction k as [|k IH]; intros q Hlen Hw Hpl Hnd.
  - apply nil_length_inv in Hlen. exists []. simpl. rewrite Hlen. split_and!.
    + destruct q; simpl in *; by subst.
    + done.
    + constructor.
  - destruct (get_top_handler_is_Some q) as [[h q0] E].
    { intros Hnil. by rewrite Hnil in Hlen. }
    pose proof (top_precedes _ _ _ Hnd E) as Htop.
    pose proof (weight_pop _ _ _ E) as Hwq.
    pose proof (get_top_handler_Some _ _ _ E) as (Hperm & Ho & _).
    rewrite Hperm in Hpl, Hnd, Hlen. apply Forall_cons in Hpl as [Hh Hpl].
    rewrite fmap_cons in Hnd. apply NoDup_cons in Hnd as [_ Hnd].
    destruct (IH q0) as (tr & Hrun & Htr & Hs); [simpl in Hlen; lia|lia|done|done|].
    destruct fuel as [|n]; [lia|].
    cbn [polls execute_highest]. rewrite E, (call_plain _ n q0 Hh) by lia.
    cbn [and_then emit]. rewrite Hrun.
    exists (h :: tr). rewrite Ho. split_and!.
    + rewrite bind_cons. unfold run_events at 2. by rewrite !app_nil_r.
    + by rewrite Hperm, Htr.
    + constructor; [done|]. by rewrite Htr.
Qed.

(** Enqueue on a fresh queue, then drain: handlers run in the order of
    the key. *)
Lemma drain_fresh l fuel :
  Forall (λ pf, plain pf.2 = true) l →
  Z.of_nat (length l) ≤ size_max →
  (weight (add_all l fresh) < fuel)%nat →
  ∃ tr, execute_all fuel (add_all l fresh)
        = Some (Returned (),
                {| handlers_ := []; order_ := size_max - Z.of_nat (length l) |},
                tr ≫= run_events)
        ∧ tr ≡ₚ enqueued l
        ∧ StronglySorted precedes tr.
Proof.
  intros Hpl Hl Hw. rewrite add_all_fresh in Hw |- * by done.
  destruct (drain_plain fuel _ Hw) as (tr & Hrun & Htr & Hs); simpl.
  - by apply enqueued_plain.
  - by apply enqueued_orders_NoDup.
  - exists tr. done.
Qed.

Lemma built_plain c l :
  Forall (λ pf, plain pf.2 = true) l →
  Forall (λ h, plain (queued_handler.function_ h) = true) (built c l).
Proof.
  intros Hl. revert c. induction Hl as [|pf l Hpf Hl IH]; intros c; [constructor|].
  rewrite built_cons. constructor; [done|apply IH].
Qed.

(** The same on a queue that has been in use: nothing pending, the
    counter anywhere at or above the number of enqueues to come, so that
    it does not wrap among them. *)
Lemma drain_used q l fuel :
  handlers_ q = [] → representable q →
  Forall (λ pf, plain pf.2 = true) l →
  Z.of_nat (length l) ≤ order_ q →
  (weight (add_all l q) < fuel)%nat →
  ∃ tr, execute_all fuel (add_all l q)
        = Some (Returned (),
                {| handlers_ := []; order_ := order_ q - Z.of_nat (length l) |},
                tr ≫= run_events)
        ∧ tr ≡ₚ built (order_ q) l
        ∧ StronglySorted precedes tr.
Proof.
  intros Hnil Hq Hpl Hl Hw.
  destruct (add_all_spec l q Hq) as [Hh Ho]. rewrite Hnil in Hh. simpl in Hh.
  rewrite to_size_t_small in Ho by (unfold representable in Hq; lia).
  destruct (drain_plain fuel _ Hw) as (tr & Hrun & Htr & Hs).
  - rewrite Hh. by apply built_plain.
  - rewrite Hh, built_orders. by apply tickets_NoDup.
  - exists tr. rewrite Hrun, Ho. split_and!; [done| |done].
    by rewrite Htr, Hh.
Qed.

Lemma StronglySorted_fmap_inv {A B} (f : A → B) (R : relation B) (l : list A) :
  StronglySorted R (f <$> l) → StronglySorted (λ x y, R (f x) (f y)) l.
Proof.
  induction l as [|x l IH]; [constructor|].
  rewrite fmap_cons. intros [Hs Hx]%StronglySorted_inv.
  constructor; [by apply IH|]. rewrite Forall_fmap in Hx. exact Hx.
Qed.

Lemma StronglySorted_weaken {A} (R1 R2 : relation A) (l : list A) :
  (∀ x y, R1 x y → R2 x y) → StronglySorted R1 l → StronglySorted R2 l.
Proof.
  intros HR. induction 1 as [|x l Hs IH Hx]; constructor; [done|].
  eapply Forall_impl; [exact Hx|]. auto.
Qed.

Lemma precedes_handler_at l i j :
  precedes (handler_at l i) (handler_at l j) → due_before l i j.
Proof. unfold precedes, due_before, handler_at. simpl. lia. Qed.

(** The four callables of the worked example. *)
Lemma weight_example :
  weight (add_all [(10, Say "A" Return); (100, Say "B" Return);
                   (10, Say "C" Return); (50, Say "D" Return)] fresh) = 12%nat.
Proof. unfold add_all. simpl. rewrite !weight_add. done. Qed.

(** *** The order of a drain *)

(** C1. Enqueue any list of priorities and callables on a fresh queue,
    fewer than [2^w] of them, the callables doing nothing to the queue, and
    drain it with [execute_all]: the handlers run in an order [σ] of the
    positions of the list in which a position of higher priority comes
    first and, among positions of equal priority, the one enqueued earlier
    comes first; each position runs once. Calling [execute_highest] once
    per element does the same. In particular (10, A), (100, B), (10, C),
    (50, D) run as B, D, A, C. *)
Theorem drain_runs_by_priority_then_fifo :
  (∀ (l : list (Z * Function)) (fuel : nat),
     Forall (λ pf, plain pf.2 = true) l →
     Z.of_nat (length l) < modulus →
     (weight (add_all l fresh) < fuel)%nat →
     ∃ σ : list nat,
       σ ≡ₚ seq 0 (length l)
       ∧ StronglySorted (due_before l) σ
       ∧ execute_all fuel (add_all l fresh)
         = Some (Returned (),
                 {| handlers_ := []; order_ := size_max - Z.of_nat (length l) |},
                 (handler_at l <$> σ) ≫= run_events)
       ∧ polls fuel (length l) (add_all l fresh)
         = execute_all fuel (add_all l fresh))
  ∧ (4 < modulus →
     ∀ fuel, (12 < fuel)%nat →
     ∃ q es,
       execute_all fuel
         (add_all [(10, Say "A" Return); (100, Say "B" Return);
                   (10, Say "C" Return); (50, Say "D" Return)] fresh)
       = Some (Returned (), q, es)
       ∧ handlers_ q = []
       ∧ said es = ["B"; "D"; "A"; "C"]%string).
Proof.
  split.
  - intros l fuel Hpl Hl Hw.
    destruct (drain_fresh l fuel Hpl) as (tr & Hrun & Htr & Hs);
      [unfold size_max; lia|done|].
    destruct (Permutation_map_inv (handler_at l) (seq 0 (length l)) Htr)
      as (σ & -> & Hσ).
    exists σ. split_and!.
    + by symmetry.
    + eapply StronglySorted_weaken; [apply precedes_handler_at|].
      by apply StronglySorted_fmap_inv.
    + exact Hrun.
    + rewrite Hrun.
      assert (Z.of_nat (length l) ≤ size_max) as Hle by (unfold size_max; lia).
      pose proof (polls_plain fuel (length l) (add_all l fresh)) as Hpolls.
      rewrite (add_all_fresh l Hle) in Hpolls, Hw |- *. simpl in Hpolls.
      destruct Hpolls as (tr' & -> & Htr' & Hs').
      * unfold enqueued. by rewrite length_fmap, length_seq.
      * done.
      * by apply enqueued_plain.
      * apply enqueued_orders_NoDup. unfold size_max. lia.
      * do 3 f_equal.
        apply (StronglySorted_unique_strong precedes); [|done..|by rewrite Htr'].
        intros a b _ _ Hab Hba. destruct (precedes_asym a b Hab Hba).
  - intros Hm fuel Hfuel.
    set (l := [(10, Say "A" Return); (100, Say "B" Return);
               (10, Say "C" Return); (50, Say "D" Return)]).
    destruct (drain_fresh l fuel) as (tr & Hrun & Htr & Hs).
    + repeat constructor.
    + unfold size_max. simpl. lia.
    + unfold l. rewrite weight_example. lia.
    + assert (tr = [handler_at l 1; handler_at l 3; handler_at l 0; handler_at l 2])
        as ->.
      { apply (StronglySorted_unique_strong precedes); [|done| |].
        - intros a b _ _ Hab Hba. destruct (precedes_asym a b Hab Hba).
        - repeat constructor; unfold precedes; simpl; lia.
        - rewrite Htr. unfold enqueued. simpl.
          rewrite (Permutation_swap (handler_at l 1) (handler_at l 0)).
          apply Permutation_skip.
          rewrite (Permutation_cons_append [_; _] (handler_at l 3)). done. }
      eexists _, _. split_and!; [exact Hrun|done|done].
Qed.

(** *** Callables that cannot throw *)

Lemma runs_return n :
  (∀ f q o q' es,
     nothrow f = true →
     Forall (λ h, nothrow (queued_handler.function_ h) = true) (handlers_ q) →
     call n f q = Some (o, q', es) →
     o = Returned ()
     ∧ Forall (λ h, nothrow (queued_handler.function_ h) = true) (handlers_ q'))
  ∧ (∀ q o q' es,
     Forall (λ h, nothrow (queued_handler.function_ h) = true) (handlers_ q) →
     execute_highest n q = Some (o, q', es) →
     (∃ b, o = Returned b)
     ∧ Forall (λ h, nothrow (queued_handler.function_ h) = true) (handlers_ q'))
  ∧ (∀ q o q' es,
     Forall (λ h, nothrow (queued_handler.function_ h) = true) (handlers_ q) →
     execute_all n q = Some (o, q', es) →
     o = Returned ()
     ∧ Forall (λ h, nothrow (queued_handler.function_ h) = true) (handlers_ q')).
Proof.
  induction n as [|n (IHc & IHh & IHa)]; [split_and!; intros; done|].
  split_and!.
  - intros f q o q' es Hf Hq. destruct f as [| |s k|p g k|k1 k2|k]; simpl in Hf |- *.
    + by intros [= <- <- <-].
    + done.
    + intros (es' & H & ->)%emit_Some. by eapply IHc.
    + apply andb_true_iff in Hf as [Hg Hk].
      intros (es' & H & ->)%emit_Some. eapply IHc; [exact Hk| |exact H].
      unfold add, priority_queue.push; simpl. apply Forall_app. split; [done|].
      by repeat constructor.
    + apply andb_true_iff in Hf as [Hk1 Hk2].
      intros [[H ->]|(b & q1 & es1 & es2 & H1 & H2 & ->)]%and_then_Some.
      * by destruct (IHh _ _ _ _ Hq H) as [[b [=]] _].
      * destruct (IHh _ _ _ _ Hq H1) as [_ Hq1].
        eapply IHc; [|exact Hq1|exact H2]. by destruct b.
    + intros [[H ->]|(b & q1 & es1 & es2 & H1 & H2 & ->)]%and_then_Some.
      * by destruct (IHa _ _ _ _ Hq H) as [[=] _].
      * destruct (IHa _ _ _ _ Hq H1) as [_ Hq1]. by eapply IHc.
  - intros q o q' es Hq. simpl.
    destruct (get_top_handler q) as [[h q0]|] eqn:E.
    + apply get_top_handler_Some in E as (Hp & _ & _). rewrite Hp in Hq.
      apply Forall_cons in Hq as [Hh Hq0].
      intros (es' & [[H ->]|(b & q1 & es1 & es2 & H1 & H2 & ->)]%and_then_Some & ->)%emit_Some.
      * by destruct (IHc _ _ _ _ _ Hh Hq0 H) as [[=] _].
      * injection H2 as <- <- <-. destruct (IHc _ _ _ _ _ Hh Hq0 H1) as [_ Hq1]. eauto.
    + intros [= <- <- <-]. eauto.
  - intros q o q' es Hq. simpl.
    destruct (get_top_handler q) as [[h q0]|] eqn:E.
    + apply get_top_handler_Some in E as (Hp & _ & _). rewrite Hp in Hq.
      apply Forall_cons in Hq as [Hh Hq0].
      intros (es' & [[H ->]|(b & q1 & es1 & es2 & H1 & H2 & ->)]%and_then_Some & ->)%emit_Some.
      * by destruct (IHc _ _ _ _ _ Hh Hq0 H) as [[=] _].
      * destruct (IHc _ _ _ _ _ Hh Hq0 H1) as [_ Hq1]. by eapply IHa.
    + by intros [= <- <- <-].
Qed.

(** C2. [execute_all] on any queue, with fuel above the weight of the
    queue, ends. When it returns, no handler is pending, and what it
    executed is what was pending when it was called together with
    everything submitted while it ran, each handler as often as it was
    pending or submitted: once. It returns whenever no callable can throw.
    On an empty queue it returns at once, nothing executed. *)
Theorem execute_all_drains q fuel :
  representable q → (weight q < fuel)%nat →
  ∃ o q' es,
    execute_all fuel q = Some (o, q', es)
    ∧ (o = Returned () →
         handlers_ q' = []
         ∧ executed es ≡ₚ handlers_ q ++ submitted es
         ∧ ∀ n, in_order n q →
                n + Z.of_nat (length (submitted es)) < modulus →
                NoDup (executed es))
    ∧ (Forall (λ h, nothrow (queued_handler.function_ h) = true) (handlers_ q) →
         o = Returned ())
    ∧ (handlers_ q = [] → o = Returned () ∧ q' = q ∧ es = []).
Proof.
  intros Hq Hw.
  destruct (runs_terminate fuel) as (_ & _ & Ht).
  destruct (Ht q Hw) as (o & q' & es & Hrun & _).
  exists o, q', es. split; [done|].
  destruct (runs_account fuel) as (_ & _ & Ha).
  destruct (Ha _ _ _ _ Hq Hrun) as [Hacc Hempty]. split_and!.
  - intros Ho. specialize (Hempty Ho). split_and!; [done| |].
    + destruct Hacc as (Hp & _). by rewrite Hp, Hempty, app_nil_r.
    + intros n Hin Hn.
      pose proof (in_order_accounts_NoDup n q es q' Hin Hacc) as Hnd.
      rewrite Hempty, app_nil_r in Hnd.
      eapply NoDup_fmap_1, Hnd. unfold size_max. lia.
  - intros Hnt. destruct (runs_return fuel) as (_ & _ & Hr).
    by destruct (Hr _ _ _ _ Hnt Hrun).
  - intros Hnil. destruct fuel; [lia|]. simpl in Hrun.
    apply get_top_handler_None in Hnil. rewrite Hnil in Hrun.
    by injection Hrun as <- <- <-.
Qed.

(** C3. [execute_highest] on an empty queue executes nothing and returns
    [false]. Otherwise it takes a pending handler that no pending handler
    is above, out of the queue, and runs its callable; the events begin
    with that execution. If the callable returns, [execute_highest]
    returns whether handlers are pending then, those the callable
    submitted included; if the callable throws, so does
    [execute_highest]. *)
Theorem execute_highest_runs_top q fuel :
  (weight q < fuel)%nat →
  (handlers_ q = [] → execute_highest fuel q = Some (Returned false, q, []))
  ∧ (handlers_ q ≠ [] →
     ∃ h q0 o q' es,
       get_top_handler q = Some (h, q0)
       ∧ h ∈ handlers_ q
       ∧ Forall (λ y, ptr_less h y = false) (handlers_ q)
       ∧ handlers_ q ≡ₚ h :: handlers_ q0
       ∧ call (pred fuel) (queued_handler.function_ h) q0 = Some (o, q', es)
       ∧ execute_highest fuel q
         = Some (match o with
                 | Returned _ => Returned (negb (priority_queue.empty (handlers_ q')))
                 | Thrown => Thrown
                 end, q', Executed h :: es)
       ∧ (∀ b, execute_highest fuel q = Some (Returned b, q', Executed h :: es) →
               (b = true ↔ handlers_ q' ≠ []))).
Proof.
  intros Hw. destruct fuel as [|n]; [lia|]. split.
  - intros Hnil. simpl. pose proof Hnil as ->%get_top_handler_None.
    by rewrite Hnil.
  - intros Hne. destruct (get_top_handler_is_Some q Hne) as [[h q0] E].
    pose proof (get_top_handler_Some _ _ _ E) as (Hp & _ & Hgt).
    pose proof (weight_pop _ _ _ E) as Hwq.
    destruct (runs_terminate n) as (Ht & _ & _).
    destruct (Ht (queued_handler.function_ h) q0) as (o & q' & es & Hrun & _); [lia|].
    assert (execute_highest (S n) q
            = Some (match o with
                    | Returned _ => Returned (negb (priority_queue.empty (handlers_ q')))
                    | Thrown => Thrown
                    end, q', Executed h :: es)) as Hex.
    { simpl. rewrite E, Hrun. destruct o as [[]|]; simpl; [|done].
      by rewrite app_nil_r. }
    exists h, q0, o, q', es. split_and!; try done.
    + rewrite Hp. by left.
    + intros b. rewrite Hex. destruct o as [[]|]; [|done].
      intros [= <-]. rewrite negb_true_iff, <- not_true_iff_false, empty_spec. done.
Qed.

(** *** What a pop removes and what a run leaves *)

Lemma execute_all_S n q :
  execute_all (S n) q
  = match get_top_handler q with
    | Some (h, q') =>
        emit (Executed h)
          (and_then (call n (queued_handler.function_ h) q')
                    (λ _ q'', execute_all n q''))
    | None => Some (Returned (), q, [])
    end.
Proof. done. Qed.

Lemma execute_highest_S n q :
  execute_highest (S n) q
  = match get_top_handler q with
    | Some (h, q') =>
        emit (Executed h)
          (and_then (call n (queued_handler.function_ h) q')
                    (λ _ q'', Some (Returned (negb (priority_queue.empty (handlers_ q''))),
                                    q'', [])))
    | None => Some (Returned (negb (priority_queue.empty (handlers_ q))), q, [])
    end.
Proof. done. Qed.

Lemma extract_delete x c :
  ∃ i, (x :: c) !! i = Some (priority_queue.extract ptr_less x c).1
       ∧ (priority_queue.extract ptr_less x c).2 = delete i (x :: c).
Proof.
  revert x. induction c as [|y c IH]; intros x; simpl.
  - by exists 0%nat.
  - destruct (IH y) as (j & Hj & Hd).
    destruct (priority_queue.extract ptr_less y c) as [m r]; simpl in *.
    destruct (ptr_less x m); simpl.
    + exists (S j). split; [done|]. by rewrite Hd.
    + by exists 0%nat.
Qed.

Lemma get_top_handler_delete q h q' :
  get_top_handler q = Some (h, q') →
  ∃ i, handlers_ q !! i = Some h ∧ handlers_ q' = delete i (handlers_ q).
Proof.
  unfold get_top_handler. destruct (handlers_ q) as [|x c]; simpl; [done|].
  intros [= <- <-]; simpl. apply extract_delete.
Qed.

Lemma descends_refl q : descends q [] q.
Proof.
  exists (handlers_ q), []. split_and!; [by rewrite app_nil_r|done|done].
Qed.

Lemma descends_trans q es1 q1 es2 q2 :
  descends q es1 q1 → descends q1 es2 q2 → descends q (es1 ++ es2) q2.
Proof.
  intros (s1 & s2 & Hq1 & Hs1 & Hs2) (t1 & t2 & Hq2 & Ht1 & Ht2).
  rewrite Hq1 in Ht1. apply sublist_app_r in Ht1 as (ta & tb & -> & Hta & Htb).
  exists ta, (tb ++ t2). split_and!.
  - by rewrite Hq2, <- (assoc_L (++)).
  - by etrans.
  - unfold submitted. rewrite omap_app. apply sublist_app; [by etrans|done].
Qed.

Lemma descends_add p f q :
  descends q [Submitted (new_handler p f q)] (add p f q).
Proof. by exists (handlers_ q), [new_handler p f q]. Qed.

Lemma descends_pop q h q' :
  get_top_handler q = Some (h, q') → descends q [Executed h] q'.
Proof.
  intros (i & _ & Hd)%get_top_handler_delete.
  exists (handlers_ q'), []. split_and!; [by rewrite app_nil_r| |done].
  rewrite Hd. apply sublist_delete.
Qed.

(** Every run leaves pending only handlers that were pending when it
    started, or that were submitted during it. *)
Lemma runs_descend n :
  (∀ f q o q' es, call n f q = Some (o, q', es) → descends q es q')
  ∧ (∀ q o q' es, execute_highest n q = Some (o, q', es) → descends q es q')
  ∧ (∀ q o q' es, execute_all n q = Some (o, q', es) → descends q es q').
Proof.
  induction n as [|n (IHc & IHh & IHa)]; [split_and!; intros; done|].
  split_and!.
  - intros f q o q' es. destruct f as [| |s k|p g k|k1 k2|k]; simpl.
    + intros [= <- <- <-]. apply descends_refl.
    + intros [= <- <- <-]. apply descends_refl.
    + intros (es' & H & ->)%emit_Some.
      apply (descends_trans q [Said s] q); [apply (descends_refl q)|by eapply IHc].
    + intros (es' & H & ->)%emit_Some.
      apply (descends_trans q [_] (add p g q)); [apply descends_add|by eapply IHc].
    + intros [[H ->]|(b & q1 & es1 & es2 & H1 & H2 & ->)]%and_then_Some.
      * by eapply IHh.
      * eapply descends_trans; [by eapply IHh|by eapply IHc].
    + intros [[H ->]|(b & q1 & es1 & es2 & H1 & H2 & ->)]%and_then_Some.
      * by eapply IHa.
      * eapply descends_trans; [by eapply IHa|by eapply IHc].
  - intros q o q' es. simpl.
    destruct (get_top_handler q) as [[h q0]|] eqn:E.
    + pose proof (descends_pop _ _ _ E) as Hpop.
      intros (es' & [[H ->]|(b & q1 & es1 & es2 & H1 & H2 & ->)]%and_then_Some & ->)%emit_Some.
      * apply (descends_trans q [_] q0); [done|by eapply IHc].
      * injection H2 as <- <- <-. rewrite app_nil_r.
        apply (descends_trans q [_] q0); [done|by eapply IHc].
    + intros [= <- <- <-]. apply descends_refl.
  - intros q o q' es. simpl.
    destruct (get_top_handler q) as [[h q0]|] eqn:E.
    + pose proof (descends_pop _ _ _ E) as Hpop.
      intros (es' & [[H ->]|(b & q1 & es1 & es2 & H1 & H2 & ->)]%and_then_Some & ->)%emit_Some.
      * apply (descends_trans q [_] q0); [done|by eapply IHc].
      * apply (descends_trans q [_] q0); [done|].
        eapply descends_trans; [by eapply IHc|by eapply IHa].
    + intros [= <- <- <-]. apply descends_refl.
Qed.

(** A callable whose body ends in a throw does throw. *)
Lemma call_raises f : ∀ n q o q' es,
  raises f = true → call n f q = Some (o, q', es) → o = Thrown.
Proof.
  induction f as [| |s k IH|p g _ k IH| |]; intros [|n] q o q' es Hf; try done; simpl.
  - by intros [= <- <- <-].
  - intros (es' & H & ->)%emit_Some. exact (IH n _ _ _ _ Hf H).
  - intros (es' & H & ->)%emit_Some. exact (IH n _ _ _ _ Hf H).
Qed.

(** C6. In every step of [execute_highest] and [execute_all], on every
    queue, the handler taken is removed before its callable is called:
    [get_top_handler] deletes one position of the pending list, the one
    holding that handler, and the callable is called on the queue so left.
    Whatever the callable does, re-entering the queue included, and
    however it ends, the handlers pending afterwards are handlers the pop
    left, in their order, followed by handlers submitted meanwhile; what
    was left or submitted is what was executed meanwhile or is pending
    still. So the handler taken is pending afterwards, or executed again
    meanwhile, only if an equal one was left behind by the pop or was
    submitted meanwhile; neither can be in a queue in order while the
    counter does not wrap. A callable whose body ends in a throw makes
    [call] throw; and whenever the callable throws, [execute_highest] and
    [execute_all] throw, with the queue as the callable left it: nothing
    is put back and no further handler is taken. *)
Theorem popped_before_run q h q0 :
  representable q → get_top_handler q = Some (h, q0) →
  (∃ i, handlers_ q !! i = Some h ∧ handlers_ q0 = delete i (handlers_ q))
  ∧ ∀ fuel, (weight q ≤ fuel)%nat →
      ∃ o q' es,
        call fuel (queued_handler.function_ h) q0 = Some (o, q', es)
        ∧ execute_highest (S fuel) q
          = Some (match o with
                  | Returned _ => Returned (negb (priority_queue.empty (handlers_ q')))
                  | Thrown => Thrown
                  end, q', Executed h :: es)
        ∧ execute_all (S fuel) q
          = emit (Executed h)
              (and_then (Some (o, q', es)) (λ _ q'', execute_all fuel q''))
        ∧ (raises (queued_handler.function_ h) = true → o = Thrown)
        ∧ (o = Thrown →
             execute_highest (S fuel) q = Some (Thrown, q', Executed h :: es)
             ∧ execute_all (S fuel) q = Some (Thrown, q', Executed h :: es))
        ∧ (∃ s1 s2, handlers_ q' = s1 ++ s2
                    ∧ s1 `sublist_of` handlers_ q0
                    ∧ s2 `sublist_of` submitted es)
        ∧ handlers_ q0 ++ submitted es ≡ₚ executed es ++ handlers_ q'
        ∧ ((h ∉ handlers_ q0) → (h ∉ submitted es) →
             (h ∉ executed es) ∧ (h ∉ handlers_ q'))
        ∧ (∀ n, in_order n q →
             n + Z.of_nat (length (submitted es)) < modulus →
             (h ∉ handlers_ q0) ∧ (h ∉ submitted es)
             ∧ (h ∉ executed es) ∧ (h ∉ handlers_ q')).
Proof.
  intros Hq E.
  pose proof (get_top_handler_Some _ _ _ E) as (Hp & Ho0 & _).
  split; [by apply get_top_handler_delete|].
  intros fuel Hw. pose proof (weight_pop _ _ _ E) as Hwq.
  destruct (runs_terminate fuel) as (Ht & _ & _).
  destruct (Ht (queued_handler.function_ h) q0) as (o & q' & es & Hrun & _); [lia|].
  pose proof (accounts_pop _ _ _ Hq E) as Hpop.
  destruct (runs_account fuel) as (Hc & _ & _).
  pose proof (Hc _ _ _ _ _ (accounts_representable _ _ _ Hpop) Hrun) as Hacc.
  pose proof Hacc as (Hperm & Htick & _).
  assert ((h ∉ handlers_ q0) → (h ∉ submitted es) →
          (h ∉ executed es) ∧ (h ∉ handlers_ q')) as Hlocal.
  { intros H0 Hs.
    assert (h ∉ executed es ++ handlers_ q') as Hnot.
    { rewrite <- Hperm. intros [?|?]%elem_of_app; auto. }
    split; intros Hin'; apply Hnot, elem_of_app; auto. }
  exists o, q', es. split_and!.
  - done.
  - rewrite execute_highest_S, E, Hrun. destruct o as [[]|]; simpl; [|done].
    by rewrite app_nil_r.
  - by rewrite execute_all_S, E, Hrun.
  - intros Hf. by eapply call_raises.
  - intros ->. by rewrite execute_highest_S, execute_all_S, E, Hrun.
  - destruct (runs_descend fuel) as (Hd & _ & _). by eapply Hd.
  - done.
  - done.
  - intros n Hin Hn.
    assert (h ∉ handlers_ q0) as H0.
    { destruct Hin as (_ & _ & Hnd & _). rewrite Hp, fmap_cons in Hnd.
      apply NoDup_cons in Hnd as [Hnotin _].
      intros Hin'. by apply Hnotin, list_elem_of_fmap_2. }
    assert (h ∉ submitted es) as Hs.
    { intros Hin'. apply (list_elem_of_fmap_2 queued_handler.order_) in Hin'.
      rewrite Htick, Ho0 in Hin'.
      pose proof Hin as (Hn0 & Ho & _ & Hb).
      pose proof size_max_representable as Hm.
      unfold size_max in *.
      assert (0 ≤ order_ q < modulus) as Hr by lia.
      assert (Z.of_nat (length (submitted es)) ≤ order_ q) as Hk by lia.
      pose proof (tickets_bounds _ _ Hr Hk) as Hbt.
      assert (h ∈ handlers_ q) as Hh by (rewrite Hp; by left).
      pose proof (proj1 (Forall_forall _ _) Hbt _ Hin') as Hlt.
      pose proof (proj1 (Forall_forall _ _) Hb h Hh) as Hge.
      simpl in Hlt, Hge. lia. }
    destruct (Hlocal H0 Hs). done.
Qed.

(** C10, as the code has it: after fewer than [2^w] calls of [add] in
    all, the pending handlers carry pairwise different sequence values,
    none below the counter (the handler added last carries the counter's
    own value). [add], [execute_highest] and [execute_all] keep this; under
    it any two pending handlers are strictly ordered by the key, and the
    handler [get_top_handler] takes is the only pending one that no
    pending handler is above. *)
Theorem pending_in_order :
  in_order 0 fresh
  ∧ (∀ n q p f, in_order n q → n + 1 < modulus → in_order (n + 1) (add p f q))
  ∧ (∀ n q fuel, in_order n q → (weight q < fuel)%nat →
       ∃ o q' es, execute_highest fuel q = Some (o, q', es)
         ∧ (n + Z.of_nat (length (submitted es)) < modulus →
              in_order (n + Z.of_nat (length (submitted es))) q'))
  ∧ (∀ n q fuel, in_order n q → (weight q < fuel)%nat →
       ∃ o q' es, execute_all fuel q = Some (o, q', es)
         ∧ (n + Z.of_nat (length (submitted es)) < modulus →
              in_order (n + Z.of_nat (length (submitted es))) q'))
  ∧ (∀ n q, in_order n q →
       (∀ i j a b, i ≠ j →
          handlers_ q !! i = Some a → handlers_ q !! j = Some b →
          precedes a b ∨ precedes b a)
       ∧ (∀ h q', get_top_handler q = Some (h, q') →
            Forall (precedes h) (handlers_ q')
            ∧ ∀ m, m ∈ handlers_ q →
                   Forall (λ y, ptr_less m y = false) (handlers_ q) → m = h)).
Proof.
  split_and!.
  - apply in_order_fresh.
  - intros n q p f Hin Hn. apply in_order_add; [done|unfold size_max; lia].
  - intros n q fuel Hin Hw.
    destruct (runs_terminate fuel) as (_ & Ht & _).
    destruct (Ht q Hw) as (o & q' & es & Hrun & _).
    exists o, q', es. split; [done|]. intros Hn.
    destruct (runs_account fuel) as (_ & Ha & _).
    destruct (Ha _ _ _ _ (in_order_representable _ _ Hin) Hrun) as [Hacc _].
    apply (in_order_accounts n q es q' Hin Hacc). unfold size_max. lia.
  - intros n q fuel Hin Hw.
    destruct (runs_terminate fuel) as (_ & _ & Ht).
    destruct (Ht q Hw) as (o & q' & es & Hrun & _).
    exists o, q', es. split; [done|]. intros Hn.
    destruct (runs_account fuel) as (_ & _ & Ha).
    destruct (Ha _ _ _ _ (in_order_representable _ _ Hin) Hrun) as [Hacc _].
    apply (in_order_accounts n q es q' Hin Hacc). unfold size_max. lia.
  - intros n q Hin. pose proof Hin as (_ & _ & Hnd & _). split.
    + intros i j a b Hij Ha Hb. apply precedes_total. intros Heq.
      apply Hij. eapply NoDup_lookup; [exact Hnd| |].
      * rewrite list_lookup_fmap, Ha. done.
      * rewrite list_lookup_fmap, Hb. simpl. by rewrite Heq.
    + intros h q' E. pose proof (top_precedes _ _ _ Hnd E) as Htop.
      split; [done|]. intros m Hm Hgt.
      pose proof (get_top_handler_Some _ _ _ E) as (Hp & _ & _).
      rewrite Hp in Hm, Hgt. apply elem_of_cons in Hm as [->|Hm]; [done|].
      apply Forall_cons in Hgt as [Hmh _].
      rewrite Forall_forall in Htop. apply Htop, lt_spec in Hm.
      unfold ptr_less in Hmh. congruence.
Qed.

(** *** Exhausting the counter *)

Lemma round_spec q :
  handlers_ q = [] →
  round q = {| handlers_ := []; order_ := to_size_t (order_ q - 1) |}.
Proof. destruct q as [hs c]. simpl. intros ->. done. Qed.

Lemma rounds_spec k q :
  handlers_ q = [] → representable q →
  Nat.iter k round q
  = {| handlers_ := []; order_ := to_size_t (order_ q - Z.of_nat k) |}.
Proof.
  intros Hnil Hq. induction k as [|k IH].
  - change (Z.of_nat 0) with 0. rewrite Z.sub_0_r, to_size_t_small by done.
    destruct q; simpl in *; by subst.
  - rewrite Nat.iter_succ, IH, round_spec by done. simpl.
    rewrite to_size_t_sub. do 2 f_equal. lia.
Qed.

(** After [size_max] rounds on a fresh queue the counter stands at 0,
    nothing pending. *)
Lemma rounds_exhaust : exhausted = {| handlers_ := []; order_ := 0 |}.
Proof.
  pose proof size_max_representable as Hm. unfold exhausted.
  rewrite rounds_spec by done. simpl.
  rewrite Z2Nat.id, Z.sub_diag by lia. done.
Qed.

Lemma new_handler_order q p f :
  representable q →
  queued_handler.order_ (new_handler p f q)
  = if order_ q =? 0 then size_max else order_ q - 1.
Proof.
  intros Hq. unfold new_handler; simpl. destruct (Z.eqb_spec (order_ q) 0) as [->|Hne].
  - apply to_size_t_underflow.
  - apply to_size_t_small. unfold representable in Hq. lia.
Qed.

(** C5, as the code has it: the counter starts at the maximum value; each
    call of [add] assigns the counter's value less one, modulo [2^w], and
    leaves the counter there. While the counter is above 0 the value
    assigned is strictly below the one before, and in a queue in order it
    differs from that of every pending handler as long as fewer than [2^w]
    calls have been made. At 0 the next call assigns the maximum value,
    above the one before. [add] has no other outcome. *)
Theorem counter_steps_down_and_wraps :
  order_ fresh = size_max
  ∧ (∀ q p f, representable q →
       queued_handler.order_ (new_handler p f q)
       = (if order_ q =? 0 then size_max else order_ q - 1)
       ∧ add p f q
         = {| handlers_ := handlers_ q ++ [new_handler p f q];
              order_ := queued_handler.order_ (new_handler p f q) |})
  ∧ (∀ q p f, 0 < order_ q < modulus →
       queued_handler.order_ (new_handler p f q) < order_ q)
  ∧ (∀ n q p f, in_order n q → n + 1 < modulus →
       queued_handler.order_ (new_handler p f q)
       ∉ queued_handler.order_ <$> handlers_ q)
  ∧ (∀ q p f, order_ q = 0 →
       queued_handler.order_ (new_handler p f q) = size_max
       ∧ order_ q < queued_handler.order_ (new_handler p f q)).
Proof.
  split_and!.
  - done.
  - intros q p f Hq. split; [by apply new_handler_order|done].
  - intros q p f Hq. rewrite new_handler_order by (unfold representable; lia).
    destruct (Z.eqb_spec (order_ q) 0); lia.
  - intros n q p f Hin Hn.
    destruct (in_order_add n q p f Hin) as (_ & _ & Hnd & _); [unfold size_max; lia|].
    unfold add, priority_queue.push in Hnd; simpl in Hnd.
    rewrite fmap_app in Hnd. apply NoDup_app in Hnd as (_ & Hnd & _).
    intros Hin'. apply (Hnd _ Hin'). simpl. by left.
  - intros q p f Hq. pose proof size_max_representable.
    rewrite new_handler_order by (unfold representable; lia).
    rewrite Hq. simpl. pose proof modulus_ge_2. unfold size_max in *. lia.
Qed.

(** C9. On a fresh queue the [k]-th call of [add], [k] from 1, assigns
    [size_max - k] modulo [2^w], the counter being decremented before its
    value is taken: the first handler gets [size_max - 1], not
    [size_max]. The values assigned [2^w] calls apart are equal, and
    after [2^w] more calls the counter is where it was; [add] has no
    outcome but the queue it leaves. *)
Theorem add_assigns_max_minus_k :
  (∀ l, queued_handler.order_ <$> handlers_ (add_all l fresh)
        = (λ k, to_size_t (size_max - Z.of_nat k)) <$> seq 1 (length l))
  ∧ (∀ l, order_ (add_all l fresh) = to_size_t (size_max - Z.of_nat (length l)))
  ∧ (∀ p f, add p f fresh
            = {| handlers_ := [queued_handler.mk p (size_max - 1) f];
                 order_ := size_max - 1 |}
            ∧ size_max - 1 ≠ size_max)
  ∧ (∀ k, to_size_t (size_max - (k + modulus)) = to_size_t (size_max - k))
  ∧ (∀ l p f,
       order_ (add_all (l ++ replicate (Z.to_nat modulus) (p, f)) fresh)
       = order_ (add_all l fresh)).
Proof.
  pose proof size_max_representable as Hm. pose proof modulus_ge_2 as H2.
  assert (∀ k, to_size_t (size_max - (k + modulus)) = to_size_t (size_max - k))
    as Hperiod.
  { intros k. unfold to_size_t.
    replace (size_max - (k + modulus)) with (size_max - k + (-1) * modulus) by lia.
    apply Z.mod_add. lia. }
  split_and!; [| | |exact Hperiod|].
  - intros l. destruct (add_all_spec l fresh Hm) as [-> _]. simpl.
    by rewrite built_orders.
  - intros l. by destruct (add_all_spec l fresh Hm) as [_ ->].
  - intros p f. split; [|lia].
    unfold add, new_handler, fresh, priority_queue.push; simpl.
    rewrite to_size_t_small by (unfold size_max; lia). done.
  - intros l p f.
    destruct (add_all_spec (l ++ replicate (Z.to_nat modulus) (p, f)) fresh Hm)
      as [_ ->].
    destruct (add_all_spec l fresh Hm) as [_ ->]. simpl.
    rewrite length_app, length_replicate, Nat2Z.inj_add, Z2Nat.id by lia.
    apply Hperiod.
Qed.

(** *** The executor *)

(** C4. [dispatch], [post] and [defer] are the same operation: each calls
    [add] with the executor's priority on the queue the executor refers
    to. That queue gains one pending handler holding the callable, every
    command of which is still to be run; no other queue changes. *)
Theorem dispatch_post_defer_enqueue ex f (σ : gmap positive queue) :
  dispatch ex f σ = post ex f σ
  ∧ post ex f σ = defer ex f σ
  ∧ defer ex f σ = alter (add (priority_ ex) f) (context_ ex) σ
  ∧ dispatch ex f σ !! context_ ex = add (priority_ ex) f <$> σ !! context_ ex
  ∧ (∀ a, a ≠ context_ ex → dispatch ex f σ !! a = σ !! a)
  ∧ (∀ q, σ !! context_ ex = Some q →
       ∃ q', dispatch ex f σ !! context_ ex = Some q'
             ∧ handlers_ q'
               = handlers_ q
                 ++ [queued_handler.mk (priority_ ex) (to_size_t (order_ q - 1)) f]
             ∧ order_ q' = to_size_t (order_ q - 1)
             ∧ weight q' = (weight q + S (cost f))%nat).
Proof.
  unfold dispatch, post, defer. split_and!; try done.
  - by rewrite lookup_alter_eq.
  - intros a Ha. by rewrite lookup_alter_ne.
  - intros q Hq. exists (add (priority_ ex) f q). split_and!; try done.
    + by rewrite lookup_alter_eq, Hq.
    + apply weight_add.
Qed.

(** C7. Two executors compare equal exactly when they hold the same
    address and the same priority; [operator!=] is the negation. Two
    executors on different queues are unequal also when the two queues
    hold the same contents. *)
Theorem executor_equality a b :
  (executor_eq a b = true ↔ context_ a = context_ b ∧ priority_ a = priority_ b)
  ∧ executor_ne a b = negb (executor_eq a b)
  ∧ (priority_ a ≠ priority_ b → executor_eq a b = false)
  ∧ (∀ (σ : gmap positive queue),
       context_ a ≠ context_ b → σ !! context_ a = σ !! context_ b →
       executor_eq a b = false ∧ executor_ne a b = true).
Proof.
  unfold executor_ne, executor_eq. split_and!.
  - rewrite andb_true_iff, bool_decide_eq_true, Z.eqb_eq. done.
  - done.
  - intros Hp. apply andb_false_iff. right. by apply Z.eqb_neq.
  - intros σ Hc _. rewrite bool_decide_eq_false_2 by done. done.
Qed.

(** C8. [on_work_started] and [on_work_finished] change nothing: every
    queue of the store, with its pending handlers and its counter, is as
    before, and the executor is a value that nothing writes to. *)
Theorem work_hooks_do_nothing ex (σ : gmap positive queue) :
  on_work_started ex σ = σ
  ∧ on_work_finished ex σ = σ
  ∧ (∀ a, handlers_ <$> on_work_started ex σ !! a = handlers_ <$> σ !! a
          ∧ order_ <$> on_work_started ex σ !! a = order_ <$> σ !! a
          ∧ handlers_ <$> on_work_finished ex σ !! a = handlers_ <$> σ !! a
          ∧ order_ <$> on_work_finished ex σ !! a = order_ <$> σ !! a).
Proof. done. Qed.

(** ** Further properties of the header *)

(** *** The comparison *)

(** X1. [operator<] on handlers, and [ptr_less] with it, is a strict weak
    ordering, as [std::priority_queue] requires of its comparison:
    irreflexive, asymmetric, transitive, and with a transitive "neither is
    less". Two handlers are equivalent under it exactly when they have the
    same priority and the same sequence value; the callable plays no part.
    A lower priority is less whatever the sequence values, and the named
    priorities are ordered low, medium, high. *)
Theorem handler_order_is_strict_weak :
  (∀ a, ptr_less a a = false)
  ∧ (∀ a b, ptr_less a b = true → ptr_less b a = false)
  ∧ (∀ a b c, ptr_less a b = true → ptr_less b c = true → ptr_less a c = true)
  ∧ (∀ a b c, ptr_less a b = false → ptr_less b c = false → ptr_less a c = false)
  ∧ (∀ a b, ptr_less a b = false ∧ ptr_less b a = false
            ↔ queued_handler.priority_ a = queued_handler.priority_ b
              ∧ queued_handler.order_ a = queued_handler.order_ b)
  ∧ (∀ a b, queued_handler.priority_ a < queued_handler.priority_ b →
            ptr_less a b = true ∧ ptr_less b a = false)
  ∧ priority.low < priority.medium < priority.high.
Proof.
  split_and!.
  - intros a. destruct (ptr_less a a) eqn:E; [|done]. by rewrite (lt_asym _ _ E) in E.
  - apply lt_asym.
  - unfold ptr_less. intros a b c. rewrite !lt_spec. unfold precedes. lia.
  - apply lt_negtrans.
  - unfold ptr_less. intros a b. rewrite <- !not_true_iff_false, !lt_spec.
    unfold precedes. lia.
  - unfold ptr_less. intros a b Hp.
    rewrite <- not_true_iff_false, !lt_spec. unfold precedes. lia.
  - done.
  - done.
Qed.

(** X2. The handler [get_top_handler] takes has the highest priority of
    all pending handlers, and among those of that priority the largest
    sequence value, whatever the state of the counter; the queue is left
    one handler shorter, its counter as it was. *)
Theorem top_has_highest_priority q h q' :
  get_top_handler q = Some (h, q') →
  h ∈ handlers_ q
  ∧ Forall (λ y, queued_handler.priority_ y ≤ queued_handler.priority_ h) (handlers_ q)
  ∧ Forall (λ y, queued_handler.priority_ y = queued_handler.priority_ h →
                 queued_handler.order_ y ≤ queued_handler.order_ h) (handlers_ q)
  ∧ length (handlers_ q) = S (length (handlers_ q'))
  ∧ order_ q' = order_ q.
Proof.
  intros (Hp & Ho & Hgt)%get_top_handler_Some. split_and!.
  - rewrite Hp. by left.
  - eapply Forall_impl; [exact Hgt|]. simpl. intros y Hy.
    unfold ptr_less in Hy. apply not_true_iff_false in Hy.
    rewrite lt_spec in Hy. unfold precedes in Hy. lia.
  - eapply Forall_impl; [exact Hgt|]. simpl. intros y Hy.
    unfold ptr_less in Hy. apply not_true_iff_false in Hy.
    rewrite lt_spec in Hy. unfold precedes in Hy. lia.
  - by rewrite Hp.
  - done.
Qed.

(** Draining callables that only speak, with no assumption on the
    sequence values. *)
Lemma drain_plain_any n : ∀ q,
  (weight q < n)%nat →
  Forall (λ h, plain (queued_handler.function_ h) = true) (handlers_ q) →
  ∃ tr, execute_all n q
        = Some (Returned (), {| handlers_ := []; order_ := order_ q |},
                tr ≫= run_events)
        ∧ tr ≡ₚ handlers_ q
        ∧ StronglySorted (λ a b, ptr_less a b = false) tr.
Proof.
  induction n as [|n IH]; intros q Hw Hpl; [lia|].
  simpl. destruct (get_top_handler q) as [[h q0]|] eqn:E.
  - pose proof (weight_pop _ _ _ E) as Hwq.
    pose proof (get_top_handler_Some _ _ _ E) as (Hperm & Ho & Hgt).
    rewrite Hperm in Hpl, Hgt. apply Forall_cons in Hpl as [Hh Hpl].
    apply Forall_cons in Hgt as [_ Hgt].
    rewrite (call_plain _ n q0 Hh) by lia. simpl.
    destruct (IH q0) as (tr & -> & Htr & Hs); [lia|done|].
    exists (h :: tr). rewrite Ho. split_and!.
    + done.
    + by rewrite Hperm, Htr.
    + constructor; [done|]. by rewrite Htr.
  - apply get_top_handler_None in E. exists []. split_and!.
    + destruct q; simpl in *; by subst.
    + by rewrite E.
    + constructor.
Qed.

(** X3. [execute_all] on any queue whose callables do nothing to the
    queue, whatever its counter and whatever sequence values its handlers
    carry (after a wrap of the counter too): it runs every pending
    handler once, never one of lower priority before one of higher
    priority, and leaves the counter as it was. *)
Theorem drain_never_inverts_priority q fuel :
  Forall (λ h, plain (queued_handler.function_ h) = true) (handlers_ q) →
  (weight q < fuel)%nat →
  ∃ tr, execute_all fuel q
        = Some (Returned (), {| handlers_ := []; order_ := order_ q |},
                tr ≫= run_events)
        ∧ executed (tr ≫= run_events) = tr
        ∧ tr ≡ₚ handlers_ q
        ∧ StronglySorted
            (λ a b, queued_handler.priority_ b ≤ queued_handler.priority_ a) tr.
Proof.
  intros Hpl Hw.
  destruct (drain_plain_any fuel q Hw Hpl) as (tr & Hrun & Htr & Hs).
  exists tr. split_and!; [done|apply executed_run_events|done|].
  eapply StronglySorted_weaken; [|exact Hs]. simpl. intros a b Hab.
  unfold ptr_less in Hab. apply not_true_iff_false in Hab.
  rewrite lt_spec in Hab. unfold precedes in Hab. lia.
Qed.

(** *** [add] followed by [get_top_handler] *)

Lemma top_unique q m :
  NoDup (queued_handler.order_ <$> handlers_ q) →
  m ∈ handlers_ q →
  Forall (λ y, ptr_less m y = false) (handlers_ q) →
  ∃ q', get_top_handler q = Some (m, q') ∧ handlers_ q ≡ₚ m :: handlers_ q'.
Proof.
  intros Hnd Hm Hgt.
  destruct (get_top_handler_is_Some q) as [[h q'] E].
  { intros Hnil. rewrite Hnil in Hm. by apply elem_of_nil in Hm. }
  pose proof (top_precedes _ _ _ Hnd E) as Htop.
  pose proof (get_top_handler_Some _ _ _ E) as (Hp & _ & _).
  assert (m = h) as ->; [|by exists q'].
  rewrite Hp in Hm, Hgt. apply elem_of_cons in Hm as [->|Hm]; [done|].
  apply Forall_cons in Hgt as [Hmh _].
  rewrite Forall_forall in Htop. apply Htop, lt_spec in Hm.
  unfold ptr_less in Hmh. congruence.
Qed.

(** X4. In a queue in order, with fewer than [2^w] calls of [add] made,
    the handler just added is taken next exactly when its priority is
    above that of every pending handler; when some pending handler has
    its priority or more, the handler that was due next is still due
    next. Either way nothing else is lost or gained. *)
Theorem add_then_top n q p f :
  in_order n q → n + 1 < modulus →
  (Forall (λ y, queued_handler.priority_ y < p) (handlers_ q) →
     ∃ q1, get_top_handler (add p f q) = Some (new_handler p f q, q1)
           ∧ handlers_ q1 ≡ₚ handlers_ q)
  ∧ (∀ h q0, get_top_handler q = Some (h, q0) →
       p ≤ queued_handler.priority_ h →
       ∃ q1, get_top_handler (add p f q) = Some (h, q1)
             ∧ handlers_ q1 ≡ₚ handlers_ q0 ++ [new_handler p f q]).
Proof.
  intros Hin Hn.
  assert (n + 1 ≤ size_max) as Hn' by (unfold size_max; lia).
  pose proof (in_order_add n q p f Hin Hn') as (_ & _ & Hnd & _).
  pose proof Hin as (Hn0 & Ho & _ & Hb).
  pose proof size_max_representable as Hm.
  assert (queued_handler.order_ (new_handler p f q) = order_ q - 1) as Hnew.
  { unfold new_handler; simpl. apply to_size_t_small. lia. }
  assert (handlers_ (add p f q) = handlers_ q ++ [new_handler p f q]) as Hadd by done.
  split.
  - intros Hlow.
    destruct (top_unique (add p f q) (new_handler p f q) Hnd) as (q1 & E & Hp).
    + rewrite Hadd. apply elem_of_app. right. by left.
    + rewrite Hadd. apply Forall_app. split.
      * eapply Forall_impl; [exact Hlow|]. simpl. intros y Hy.
        unfold ptr_less. apply not_true_iff_false. rewrite lt_spec.
        unfold precedes, new_handler; simpl. lia.
      * repeat constructor. unfold ptr_less. apply not_true_iff_false.
        rewrite lt_spec. unfold precedes. lia.
    + exists q1. split; [done|].
      rewrite Hadd, <- Permutation_cons_append in Hp.
      by apply Permutation_cons_inv in Hp.
  - intros h q0 E0 Hph.
    pose proof (get_top_handler_Some _ _ _ E0) as (Hp0 & _ & Hgt0).
    assert (h ∈ handlers_ q) as Hh by (rewrite Hp0; by left).
    rewrite Forall_forall in Hb. pose proof (Hb h Hh) as Hbh.
    destruct (top_unique (add p f q) h Hnd) as (q1 & E & Hp).
    + rewrite Hadd. apply elem_of_app. by left.
    + rewrite Hadd. apply Forall_app. split; [done|].
      repeat constructor. unfold ptr_less. apply not_true_iff_false.
      rewrite lt_spec. unfold precedes. rewrite Hnew.
      unfold new_handler; simpl. lia.
    + exists q1. split; [done|].
      rewrite Hadd, Hp0 in Hp. simpl in Hp.
      by apply Permutation_cons_inv in Hp.
Qed.

(** *** [execute_all] and [execute_highest] *)

(** X5. [execute_all] is [execute_highest] followed by [execute_all]: the
    same handler is taken and run, an exception leaves both the same way,
    and the events are the same. The value [execute_highest] returns is
    not looked at. *)
Theorem execute_all_is_highest_then_all n q :
  execute_all (S (S n)) q
  = and_then (execute_highest (S (S n)) q) (λ _ q', execute_all (S n) q').
Proof.
  rewrite (execute_all_S (S n) q), (execute_highest_S (S n) q).
  destruct (get_top_handler q) as [[h q0]|] eqn:E.
  - destruct (call (S n) (queued_handler.function_ h) q0) as [[[[[]|] q1] es1]|];
      cbn [and_then emit]; [|done|done].
    destruct (execute_all (S n) q1) as [[[o q2] es2]|]; cbn [and_then emit]; [|done].
    by rewrite app_nil_r.
  - cbn [and_then]. rewrite (execute_all_S n q), E. done.
Qed.

(** X6. When [execute_all] is left by an exception, no handler is lost
    and none is duplicated: what was pending or submitted is what was
    executed or is pending still. Calling [execute_all] again takes up
    the rest, and when that call returns, every handler that was pending
    at the first call or submitted during either has been executed. *)
Theorem interrupted_drain_resumes q fuel q' es :
  representable q →
  execute_all fuel q = Some (Thrown, q', es) →
  handlers_ q ++ submitted es ≡ₚ executed es ++ handlers_ q'
  ∧ ∀ fuel', (weight q' < fuel')%nat →
      ∃ o q'' es',
        execute_all fuel' q' = Some (o, q'', es')
        ∧ (o = Returned () →
             handlers_ q'' = []
             ∧ executed (es ++ es') ≡ₚ handlers_ q ++ submitted (es ++ es')).
Proof.
  intros Hq Hrun.
  destruct (runs_account fuel) as (_ & _ & Ha).
  destruct (Ha _ _ _ _ Hq Hrun) as [Hacc _].
  split; [by destruct Hacc|].
  intros fuel' Hw.
  destruct (runs_terminate fuel') as (_ & _ & Ht).
  destruct (Ht q' Hw) as (o & q'' & es' & Hrun' & _).
  exists o, q'', es'. split; [done|]. intros Ho.
  destruct (runs_account fuel') as (_ & _ & Ha').
  destruct (Ha' _ _ _ _ (accounts_representable _ _ _ Hacc) Hrun') as [Hacc' Hnil].
  specialize (Hnil Ho). split; [done|].
  destruct (accounts_trans _ _ _ _ _ Hacc Hacc') as (Hp & _).
  by rewrite Hp, Hnil, app_nil_r.
Qed.

(** X7. Taking handlers out never moves the counter: after any call of
    [execute_highest] or [execute_all], however it ends, the counter
    stands below where it stood by the number of submissions made
    meanwhile, modulo [2^w], and those submissions carry the consecutive
    sequence values in between, in the order they were made. *)
Theorem runs_move_counter_by_submissions fuel q :
  representable q →
  (∀ o q' es, execute_highest fuel q = Some (o, q', es) →
     order_ q' = to_size_t (order_ q - Z.of_nat (length (submitted es)))
     ∧ queued_handler.order_ <$> submitted es
       = (λ i, to_size_t (order_ q - Z.of_nat i)) <$> seq 1 (length (submitted es)))
  ∧ (∀ o q' es, execute_all fuel q = Some (o, q', es) →
     order_ q' = to_size_t (order_ q - Z.of_nat (length (submitted es)))
     ∧ queued_handler.order_ <$> submitted es
       = (λ i, to_size_t (order_ q - Z.of_nat i)) <$> seq 1 (length (submitted es))).
Proof.
  intros Hq. destruct (runs_account fuel) as (_ & Hh & Ha). split.
  - intros o q' es Hrun. by destruct (Hh _ _ _ _ Hq Hrun) as [(_ & ? & ?) _].
  - intros o q' es Hrun. by destruct (Ha _ _ _ _ Hq Hrun) as [(_ & ? & ?) _].
Qed.

(** X8. When no pending callable can throw, and nothing they submit can,
    [execute_highest] does not throw, and what is pending afterwards
    cannot throw either. *)
Theorem execute_highest_does_not_throw fuel q o q' es :
  Forall (λ h, nothrow (queued_handler.function_ h) = true) (handlers_ q) →
  execute_highest fuel q = Some (o, q', es) →
  (∃ b, o = Returned b)
  ∧ Forall (λ h, nothrow (queued_handler.function_ h) = true) (handlers_ q').
Proof.
  intros Hq Hrun. destruct (runs_return fuel) as (_ & Hh & _). by eapply Hh.
Qed.

(** *** Executors *)

(** X9. [operator==] on executors is an equivalence, and executors that
    compare equal are interchangeable: they give the same queue, and
    [dispatch], [post] and [defer] through one do what they do through
    the other. *)
Theorem equal_executors_interchangeable :
  (∀ a, executor_eq a a = true)
  ∧ (∀ a b, executor_eq a b = executor_eq b a)
  ∧ (∀ a b c, executor_eq a b = true → executor_eq b c = true →
              executor_eq a c = true)
  ∧ (∀ a b f (σ : gmap positive queue), executor_eq a b = true →
       context a = context b
       ∧ dispatch a f σ = dispatch b f σ
       ∧ post a f σ = post b f σ
       ∧ defer a f σ = defer b f σ).
Proof.
  assert (∀ a b, executor_eq a b = true
                 ↔ context_ a = context_ b ∧ priority_ a = priority_ b) as Heq.
  { intros a b. unfold executor_eq.
    by rewrite andb_true_iff, bool_decide_eq_true, Z.eqb_eq. }
  split_and!.
  - intros a. by apply Heq.
  - intros a b. apply eq_true_iff_eq. rewrite !Heq. intuition congruence.
  - intros a b c. rewrite !Heq. intuition congruence.
  - intros a b f σ [Hc Hp]%Heq. unfold context, dispatch, post, defer.
    by rewrite Hc, Hp.
Qed.

(** X10. Submissions through executors on different queues do not
    interfere: made in either order they leave the same store. Two
    submissions through executors on the same queue are both pending
    there behind what was pending, the first made first, with the two
    next sequence values. *)
Theorem submissions_to_distinct_queues_commute a b f g (σ : gmap positive queue) :
  (context_ a ≠ context_ b →
     dispatch a f (post b g σ) = post b g (dispatch a f σ))
  ∧ (∀ q, context_ a = context_ b → σ !! context_ a = Some q →
       ∃ q', dispatch a f (post b g σ) !! context_ a = Some q'
             ∧ handlers_ q'
               = handlers_ q
                 ++ [queued_handler.mk (priority_ b) (to_size_t (order_ q - 1)) g;
                     queued_handler.mk (priority_ a) (to_size_t (order_ q - 2)) f]
             ∧ order_ q' = to_size_t (order_ q - 2)).
Proof.
  unfold dispatch, post. split.
  - intros Hne. apply map_eq. intros i.
    destruct (decide (i = context_ a)) as [Hia|Hia];
      destruct (decide (i = context_ b)) as [Hib|Hib]; [congruence|..].
    + subst i. rewrite lookup_alter_eq, !(lookup_alter_ne _ _ (context_ b)) by done.
      by rewrite lookup_alter_eq.
    + subst i. rewrite lookup_alter_eq, !(lookup_alter_ne _ _ (context_ a)) by done.
      by rewrite lookup_alter_eq.
    + by rewrite !lookup_alter_ne.
  - intros q Hab Hq. rewrite <- Hab.
    exists (add (priority_ a) f (add (priority_ b) g q)). split_and!.
    + by rewrite !lookup_alter_eq, Hq.
    + unfold add, new_handler, priority_queue.push; simpl.
      rewrite <- (assoc_L (++)). simpl. do 3 f_equal.
      rewrite to_size_t_sub. done.
    + unfold add, new_handler; simpl. by rewrite to_size_t_sub.
Qed.

Lemma call_without_reentry f : ∀ n q o q' es,
  reenters f = false →
  call n f q = Some (o, q', es) →
  executed es = [] ∧ handlers_ q' = handlers_ q ++ submitted es.
Proof.
  induction f as [| |s k IH|p g _ k IH| |]; intros [|n] q o q' es Hf; try done; simpl.
  - intros [= <- <- <-]. by rewrite app_nil_r.
  - intros [= <- <- <-]. by rewrite app_nil_r.
  - intros (es' & H & ->)%emit_Some. exact (IH n _ _ _ _ Hf H).
  - intros (es' & H & ->)%emit_Some.
    destruct (IH n _ _ _ _ Hf H) as [He Hh]. split; [done|].
    rewrite Hh. unfold add, priority_queue.push, submitted; simpl.
    by rewrite <- (assoc_L (++)).
Qed.

(** X11. When the callable of the handler taken does not itself call
    [execute_highest] or [execute_all], [execute_highest] executes that
    one handler and no other, whether the callable returns or throws.
    Every handler the callable submitted is pending afterwards, behind
    what was left, and a returned value tells whether any of those is
    there. *)
Theorem execute_highest_runs_exactly_one q h q0 fuel o q' es :
  get_top_handler q = Some (h, q0) →
  reenters (queued_handler.function_ h) = false →
  execute_highest fuel q = Some (o, q', es) →
  executed es = [h]
  ∧ handlers_ q' = handlers_ q0 ++ submitted es
  ∧ (length (handlers_ q') + 1 = length (handlers_ q) + length (submitted es))%nat
  ∧ (∀ b, o = Returned b →
          b = negb (priority_queue.empty (handlers_ q0 ++ submitted es))).
Proof.
  intros E Hf. destruct fuel as [|n]; [done|].
  rewrite (execute_highest_S n q), E.
  pose proof (get_top_handler_Some _ _ _ E) as (Hp & _ & _).
  intros (es' & [[H ->]|(b & q1 & es1 & es2 & H1 & H2 & ->)]%and_then_Some & ->)%emit_Some.
  - destruct (call_without_reentry _ _ _ _ _ _ Hf H) as [He Hh].
    change (executed (Executed h :: es')) with (h :: executed es').
    change (submitted (Executed h :: es')) with (submitted es').
    rewrite He. split_and!; [done|done| |done].
    rewrite Hh, Hp, length_app. simpl. lia.
  - injection H2 as <- <- <-.
    destruct (call_without_reentry _ _ _ _ _ _ Hf H1) as [He Hh].
    rewrite app_nil_r.
    change (executed (Executed h :: es1)) with (h :: executed es1).
    change (submitted (Executed h :: es1)) with (submitted es1).
    rewrite He. split_and!; [done|done| |].
    + rewrite Hh, Hp, length_app. simpl. lia.
    + intros b' [= <-]. by rewrite Hh.
Qed.

End width.

(** ** Instances on a 64-bit [std::size_t] *)

Lemma drain_runs_by_priority_then_fifo_witness :
  Forall (λ pf, plain pf.2 = true)
         [(priority.low, Say "A" Return); (priority.high, Say "B" Return)]
  ∧ Z.of_nat 2 < modulus 64
  ∧ (∃ σ : list nat,
       σ ≡ₚ seq 0 2
       ∧ StronglySorted
           (due_before [(priority.low, Say "A" Return); (priority.high, Say "B" Return)]) σ
       ∧ execute_all 64 7
           (add_all 64 [(priority.low, Say "A" Return); (priority.high, Say "B" Return)]
                    (fresh 64))
         = Some (Returned (),
                 {| handlers_ := []; order_ := size_max 64 - Z.of_nat 2 |},
                 (handler_at 64 [(priority.low, Say "A" Return);
                                 (priority.high, Say "B" Return)] <$> σ)
                 ≫= run_events)
       ∧ polls 64 7 2
           (add_all 64 [(priority.low, Say "A" Return); (priority.high, Say "B" Return)]
                    (fresh 64))
         = execute_all 64 7
             (add_all 64 [(priority.low, Say "A" Return); (priority.high, Say "B" Return)]
                      (fresh 64)))
  ∧ (∃ q es,
       execute_all 64 13
         (add_all 64 [(10, Say "A" Return); (100, Say "B" Return);
                      (10, Say "C" Return); (50, Say "D" Return)] (fresh 64))
       = Some (Returned (), q, es)
       ∧ handlers_ q = []
       ∧ said es = ["B"; "D"; "A"; "C"]%string).
Proof.
  split_and!.
  - repeat constructor.
  - reflexivity.
  - apply (proj1 (drain_runs_by_priority_then_fifo 64)
             [(priority.low, Say "A" Return); (priority.high, Say "B" Return)] 7%nat).
    + repeat constructor.
    + reflexivity.
    + vm_compute. lia.
  - apply (proj2 (drain_runs_by_priority_then_fifo 64)); [reflexivity|lia].
Defined.

Lemma execute_all_drains_witness :
  representable 64
    (add_all 64 [(priority.low, Call_add priority.high (Say "x" Return) Return);
                 (priority.medium, Return)] (fresh 64))
  ∧ (weight (add_all 64 [(priority.low, Call_add priority.high (Say "x" Return) Return);
                         (priority.medium, Return)] (fresh 64)) < 9)%nat
  ∧ ∃ o q' es,
      execute_all 64 9
        (add_all 64 [(priority.low, Call_add priority.high (Say "x" Return) Return);
                     (priority.medium, Return)] (fresh 64))
      = Some (o, q', es)
      ∧ o = Returned ()
      ∧ handlers_ q' = []
      ∧ length (executed es) = 3%nat.
Proof.
  assert (representable 64
            (add_all 64 [(priority.low, Call_add priority.high (Say "x" Return) Return);
                         (priority.medium, Return)] (fresh 64))) as Hq.
  { vm_compute. split; [discriminate|reflexivity]. }
  assert (weight (add_all 64 [(priority.low, Call_add priority.high (Say "x" Return) Return);
                              (priority.medium, Return)] (fresh 64)) < 9)%nat as Hw.
  { vm_compute. lia. }
  split_and!; [exact Hq|exact Hw|].
  destruct (execute_all_drains 64 _ 9%nat Hq Hw) as (o & q' & es & Hrun & Hret & Hnt & _).
  exists o, q', es.
  assert (o = Returned ()) as Ho by (apply Hnt; repeat constructor).
  destruct (Hret Ho) as (Hnil & _ & _).
  split_and!; [exact Hrun|exact Ho|exact Hnil|].
  vm_compute in Hrun. injection Hrun as <- <- <-. reflexivity.
Defined.

Lemma execute_highest_runs_top_witness :
  (weight (add 64 priority.low (Say "A" Return) (fresh 64)) < 4)%nat
  ∧ handlers_ (add 64 priority.low (Say "A" Return) (fresh 64)) ≠ []
  ∧ ∃ h q0 o q' es,
      get_top_handler (add 64 priority.low (Say "A" Return) (fresh 64)) = Some (h, q0)
      ∧ call 64 3 (queued_handler.function_ h) q0 = Some (o, q', es)
      ∧ execute_highest 64 4 (add 64 priority.low (Say "A" Return) (fresh 64))
        = Some (match o with
                | Returned _ => Returned (negb (priority_queue.empty (handlers_ q')))
                | Thrown => Thrown
                end, q', Executed h :: es).
Proof.
  assert (weight (add 64 priority.low (Say "A" Return) (fresh 64)) < 4)%nat as Hw.
  { vm_compute. lia. }
  assert (handlers_ (add 64 priority.low (Say "A" Return) (fresh 64)) ≠ []) as Hne.
  { vm_compute. discriminate. }
  split_and!; [exact Hw|exact Hne|].
  destruct (proj2 (execute_highest_runs_top 64 _ 4%nat Hw) Hne)
    as (h & q0 & o & q' & es & Htop & _ & _ & _ & Hcall & Hrun & _).
  exists h, q0, o, q', es. split_and!; [exact Htop|exact Hcall|exact Hrun].
Defined.

Lemma popped_before_run_witness :
  representable 64 (add 64 priority.low (Call_add priority.high Return Throw) (fresh 64))
  ∧ get_top_handler (add 64 priority.low (Call_add priority.high Return Throw) (fresh 64))
    = Some (queued_handler.mk priority.low (size_max 64 - 1)
              (Call_add priority.high Return Throw),
            {| handlers_ := []; order_ := size_max 64 - 1 |})
  ∧ raises (Call_add priority.high Return Throw) = true
  ∧ in_order 64 1 (add 64 priority.low (Call_add priority.high Return Throw) (fresh 64))
  ∧ ∃ q' es,
      execute_highest 64 6
        (add 64 priority.low (Call_add priority.high Return Throw) (fresh 64))
      = Some (Thrown, q',
              Executed (queued_handler.mk priority.low (size_max 64 - 1)
                          (Call_add priority.high Return Throw)) :: es)
      ∧ execute_all 64 6
          (add 64 priority.low (Call_add priority.high Return Throw) (fresh 64))
        = Some (Thrown, q',
                Executed (queued_handler.mk priority.low (size_max 64 - 1)
                            (Call_add priority.high Return Throw)) :: es)
      ∧ handlers_ q' = [queued_handler.mk priority.high (size_max 64 - 2) Return]
      ∧ (queued_handler.mk priority.low (size_max 64 - 1)
           (Call_add priority.high Return Throw) ∉ handlers_ q')
      ∧ (queued_handler.mk priority.low (size_max 64 - 1)
           (Call_add priority.high Return Throw) ∉ executed es).
Proof.
  assert (representable 64
            (add 64 priority.low (Call_add priority.high Return Throw) (fresh 64)))
    as Hq.
  { vm_compute. split; [discriminate|reflexivity]. }
  assert (get_top_handler
            (add 64 priority.low (Call_add priority.high Return Throw) (fresh 64))
          = Some (queued_handler.mk priority.low (size_max 64 - 1)
                    (Call_add priority.high Return Throw),
                  {| handlers_ := []; order_ := size_max 64 - 1 |})) as Htop
    by reflexivity.
  assert (raises (Call_add priority.high Return Throw) = true) as Hf by reflexivity.
  assert (in_order 64 1
            (add 64 priority.low (Call_add priority.high Return Throw) (fresh 64)))
    as Hin.
  { apply (in_order_add 64 0); [apply in_order_fresh|vm_compute; discriminate]. }
  split; [exact Hq|]. split; [exact Htop|]. split; [exact Hf|]. split; [exact Hin|].
  destruct (proj2 (popped_before_run 64 _ _ _ Hq Htop) 5%nat)
    as (o & q' & es & Hcall & _ & _ & Hraise & Hthrown & _ & _ & _ & Hkept).
  { vm_compute. lia. }
  pose proof (Hraise Hf) as Ho. destruct (Hthrown Ho) as [Hh Ha].
  rewrite Ho in Hcall. injection Hcall as Hq' Hes.
  exists q', es. split; [exact Hh|]. split; [exact Ha|].
  split; [rewrite <- Hq'; reflexivity|].
  destruct (Hkept 1 Hin) as (_ & _ & Hex & Hpe).
  { rewrite <- Hes. reflexivity. }
  split; [exact Hpe|exact Hex].
Defined.

Lemma pending_in_order_witness :
  in_order 64 0 (fresh 64)
  ∧ 0 + 1 < modulus 64
  ∧ in_order 64 (0 + 1) (add 64 priority.low Return (fresh 64)).
Proof.
  assert (0 + 1 < modulus 64) as Hn by reflexivity.
  split_and!; [exact (proj1 (pending_in_order 64))|exact Hn|].
  exact (proj1 (proj2 (pending_in_order 64)) 0 (fresh 64) priority.low Return
           (proj1 (pending_in_order 64)) Hn).
Defined.

Lemma counter_steps_down_and_wraps_witness :
  representable 64 (fresh 64)
  ∧ 0 < order_ (fresh 64) < modulus 64
  ∧ queued_handler.order_ (new_handler 64 priority.low Return (fresh 64))
    < order_ (fresh 64).
Proof.
  assert (0 < order_ (fresh 64) < modulus 64) as Hc.
  { vm_compute. split; reflexivity. }
  split; [vm_compute; split; [discriminate|reflexivity]|].
  split; [exact Hc|].
  exact (proj1 (proj2 (proj2 (counter_steps_down_and_wraps 64)))
           (fresh 64) priority.low Return Hc).
Defined.

Lemma dispatch_post_defer_enqueue_witness :
  (2%positive ≠ 1%positive)
  ∧ dispatch 64 (mk_executor 1 priority.high) Return
             (<[1%positive := fresh 64]> (<[2%positive := fresh 64]> ∅)) !! 2%positive
    = Some (fresh 64)
  ∧ ∃ q', dispatch 64 (mk_executor 1 priority.high) Return
                   (<[1%positive := fresh 64]> (<[2%positive := fresh 64]> ∅)) !! 1%positive
          = Some q'
          ∧ handlers_ q' = [queued_handler.mk priority.high (size_max 64 - 1) Return].
Proof.
  pose proof (dispatch_post_defer_enqueue 64 (mk_executor 1 priority.high) Return
                (<[1%positive := fresh 64]> (<[2%positive := fresh 64]> ∅)))
    as (_ & _ & _ & _ & Hother & Hsame).
  split_and!.
  - discriminate.
  - rewrite (Hother 2%positive); [reflexivity|discriminate].
  - destruct (Hsame (fresh 64)) as (q' & Hq' & Hh & _); [reflexivity|].
    exists q'. split; [exact Hq'|exact Hh].
Defined.

Lemma executor_equality_witness :
  context_ (mk_executor 1 priority.high) ≠ context_ (mk_executor 2 priority.high)
  ∧ executor_eq (mk_executor 1 priority.high) (mk_executor 2 priority.high) = false
  ∧ executor_ne (mk_executor 1 priority.high) (mk_executor 2 priority.high) = true.
Proof.
  assert (context_ (mk_executor 1 priority.high) ≠ context_ (mk_executor 2 priority.high))
    as Hc by discriminate.
  split; [exact Hc|].
  apply (proj2 (proj2 (proj2
           (executor_equality (mk_executor 1 priority.high) (mk_executor 2 priority.high))))
           (<[1%positive := fresh 64]> (<[2%positive := fresh 64]> ∅)) Hc).
  reflexivity.
Defined.

(** Against C5 as stated: the counter of a 64-bit queue, run down by
    [2^64 - 1] rounds of submit-and-run, stands at 0; the next call of [add] returns as every
    other, and assigns the largest value, not a smaller one. *)
Lemma exhausted_counter_wraps_silently :
  order_ (exhausted 64) = 0
  ∧ handlers_ (exhausted 64) = []
  ∧ queued_handler.order_ (new_handler 64 priority.low Return (exhausted 64))
    = 18446744073709551615
  ∧ ¬ (queued_handler.order_ (new_handler 64 priority.low Return (exhausted 64))
       < order_ (exhausted 64))
  ∧ add 64 priority.low Return (exhausted 64)
    = {| handlers_ := [queued_handler.mk priority.low 18446744073709551615 Return];
         order_ := 18446744073709551615 |}.
Proof.
  rewrite (rounds_exhaust 64). split_and!; try reflexivity.
  vm_compute. discriminate.
Qed.

(** Against C10 as stated: on a fresh 64-bit queue nothing is pending;
    after one call of [add] the one pending handler carries the counter's
    value, not a greater one. *)
Lemma newest_handler_equals_counter :
  Forall (λ h, order_ (fresh 64) < queued_handler.order_ h) (handlers_ (fresh 64))
  ∧ 1 < modulus 64
  ∧ handlers_ (add 64 priority.low Return (fresh 64))
    = [queued_handler.mk priority.low 18446744073709551614 Return]
  ∧ order_ (add 64 priority.low Return (fresh 64)) = 18446744073709551614
  ∧ ¬ Forall (λ h, order_ (add 64 priority.low Return (fresh 64))
                   < queued_handler.order_ h)
             (handlers_ (add 64 priority.low Return (fresh 64))).
Proof.
  split_and!; [constructor|reflexivity|reflexivity|reflexivity|].
  intros [H _]%Forall_cons. vm_compute in H. discriminate.
Qed.

(** ** Worked runs on a 64-bit [std::size_t] *)

Example run_one_on_fresh :
  execute_highest 64 1 (fresh 64) = Some (Returned false, fresh 64, []).
Proof. reflexivity. Qed.

Example run_all_on_fresh :
  execute_all 64 1 (fresh 64) = Some (Returned (), fresh 64, []).
Proof. reflexivity. Qed.

(** A callable that submits at a higher priority: the new handler runs
    before the one that was already waiting. *)
Example submitting_callable :
  (λ r, (r.1.1, handlers_ r.1.2, said r.2))
    <$> execute_all 64 12
          (add_all 64 [(priority.medium,
                        Say "A" (Call_add priority.high (Say "B" Return) Return));
                       (priority.low, Say "C" Return)] (fresh 64))
  = Some (Returned (), [], ["A"; "B"; "C"]%string).
Proof. vm_compute. reflexivity. Qed.

(** A callable that throws ends the drain: what was behind it stays
    pending. *)
Example throwing_callable :
  (λ r, (r.1.1, queued_handler.function_ <$> handlers_ r.1.2, said r.2))
    <$> execute_all 64 12
          (add_all 64 [(priority.high, Say "A" Throw);
                       (priority.low, Say "B" Return)] (fresh 64))
  = Some (Thrown, [Say "B" Return], ["A"]%string).
Proof. vm_compute. reflexivity. Qed.

(** A callable that drains the queue from inside its own execution. *)
Example reentering_callable :
  (λ r, (r.1.1, handlers_ r.1.2, said r.2))
    <$> execute_all 64 12
          (add_all 64 [(priority.high, Say "A" (Call_execute_all (Say "A'" Return)));
                       (priority.low, Say "B" Return)] (fresh 64))
  = Some (Returned (), [], ["A"; "B"; "A'"]%string).
Proof. vm_compute. reflexivity. Qed.

(** An exception from a handler run by a re-entrant [execute_all] passes
    through the callable that re-entered and out of the outer call; the
    handler of that callable was not pending for the inner drain. *)
Example exception_through_reentry :
  (λ r, (r.1.1, handlers_ r.1.2, queued_handler.priority_ <$> executed r.2, said r.2))
    <$> execute_highest 64 12
          (add 64 priority.high
             (Call_add priority.low (Say "inner" Throw)
                (Call_execute_all (Say "not reached" Return)))
             (fresh 64))
  = Some (Thrown, [], [priority.high; priority.low], ["inner"]%string).
Proof. vm_compute. reflexivity. Qed.

(** [execute_highest] tells whether handlers are left. *)
Example run_one_of_two :
  (λ r, (r.1.1, queued_handler.function_ <$> handlers_ r.1.2, said r.2))
    <$> execute_highest 64 12
          (add_all 64 [(priority.low, Say "A" Return);
                       (priority.high, Say "B" Return)] (fresh 64))
  = Some (Returned true, [Say "A" Return], ["B"]%string).
Proof. vm_compute. reflexivity. Qed.

(** Two submissions of equal priority astride the wrap of the counter run
    in reverse. *)
Example order_across_the_wrap :
  (λ r, (r.1.1, handlers_ r.1.2, said r.2))
    <$> execute_all 64 12
          (add_all 64 [(priority.low, Say "A" Return);
                       (priority.low, Say "B" Return)]
                   {| handlers_ := []; order_ := 1 |})
  = Some (Returned (), [], ["B"; "A"]%string).
Proof. vm_compute. reflexivity. Qed.

(** ** Instances of the further properties *)

Lemma handler_order_is_strict_weak_witness :
  ptr_less (queued_handler.mk priority.low 7 Return)
           (queued_handler.mk priority.high 3 Throw) = true
  ∧ ptr_less (queued_handler.mk priority.high 3 Throw)
             (queued_handler.mk priority.low 7 Return) = false.
Proof.
  assert (ptr_less (queued_handler.mk priority.low 7 Return)
                   (queued_handler.mk priority.high 3 Throw) = true) as H
    by reflexivity.
  split; [exact H|].
  exact (proj1 (proj2 handler_order_is_strict_weak) _ _ H).
Defined.

Lemma top_has_highest_priority_witness :
  get_top_handler
    (add_all 64 [(priority.low, Return); (priority.high, Throw)] (fresh 64))
  = Some (queued_handler.mk priority.high (size_max 64 - 2) Throw,
          {| handlers_ := [queued_handler.mk priority.low (size_max 64 - 1) Return];
             order_ := size_max 64 - 2 |})
  ∧ queued_handler.mk priority.high (size_max 64 - 2) Throw
    ∈ handlers_ (add_all 64 [(priority.low, Return); (priority.high, Throw)] (fresh 64)).
Proof.
  assert (get_top_handler
            (add_all 64 [(priority.low, Return); (priority.high, Throw)] (fresh 64))
          = Some (queued_handler.mk priority.high (size_max 64 - 2) Throw,
                  {| handlers_ := [queued_handler.mk priority.low (size_max 64 - 1) Return];
                     order_ := size_max 64 - 2 |})) as H by reflexivity.
  split; [exact H|].
  exact (proj1 (top_has_highest_priority _ _ _ H)).
Defined.

Lemma drain_never_inverts_priority_witness :
  Forall (λ h, plain (queued_handler.function_ h) = true)
    (handlers_ (add_all 64 [(priority.low, Say "A" Return);
                            (priority.low, Say "B" Return)]
                        {| handlers_ := []; order_ := 1 |}))
  ∧ (weight (add_all 64 [(priority.low, Say "A" Return);
                         (priority.low, Say "B" Return)]
                     {| handlers_ := []; order_ := 1 |}) < 7)%nat
  ∧ ∃ tr, execute_all 64 7
            (add_all 64 [(priority.low, Say "A" Return);
                         (priority.low, Say "B" Return)]
                     {| handlers_ := []; order_ := 1 |})
          = Some (Returned (), {| handlers_ := []; order_ := size_max 64 |},
                  tr ≫= run_events)
          ∧ StronglySorted
              (λ a b, queued_handler.priority_ b ≤ queued_handler.priority_ a) tr.
Proof.
  assert (Forall (λ h, plain (queued_handler.function_ h) = true)
            (handlers_ (add_all 64 [(priority.low, Say "A" Return);
                                    (priority.low, Say "B" Return)]
                                {| handlers_ := []; order_ := 1 |}))) as Hpl.
  { repeat constructor. }
  assert (weight (add_all 64 [(priority.low, Say "A" Return);
                              (priority.low, Say "B" Return)]
                          {| handlers_ := []; order_ := 1 |}) < 7)%nat as Hw.
  { vm_compute. lia. }
  split; [exact Hpl|]. split; [exact Hw|].
  destruct (drain_never_inverts_priority 64 _ 7%nat Hpl Hw) as (tr & Hrun & _ & _ & Hs).
  exists tr. split; [exact Hrun|exact Hs].
Defined.

Lemma add_then_top_witness :
  in_order 64 1 (add 64 priority.high Return (fresh 64))
  ∧ 1 + 1 < modulus 64
  ∧ get_top_handler (add 64 priority.high Return (fresh 64))
    = Some (queued_handler.mk priority.high (size_max 64 - 1) Return,
            {| handlers_ := []; order_ := size_max 64 - 1 |})
  ∧ priority.low ≤ priority.high
  ∧ ∃ q1, get_top_handler
            (add 64 priority.low Throw (add 64 priority.high Return (fresh 64)))
          = Some (queued_handler.mk priority.high (size_max 64 - 1) Return, q1).
Proof.
  assert (in_order 64 1 (add 64 priority.high Return (fresh 64))) as Hin.
  { apply (in_order_add 64 0); [apply in_order_fresh|vm_compute; discriminate]. }
  assert (1 + 1 < modulus 64) as Hn by reflexivity.
  assert (get_top_handler (add 64 priority.high Return (fresh 64))
          = Some (queued_handler.mk priority.high (size_max 64 - 1) Return,
                  {| handlers_ := []; order_ := size_max 64 - 1 |})) as Htop
    by reflexivity.
  assert (priority.low ≤ priority.high) as Hp by (vm_compute; discriminate).
  split; [exact Hin|]. split; [exact Hn|]. split; [exact Htop|]. split; [exact Hp|].
  destruct (proj2 (add_then_top 64 1 _ priority.low Throw Hin Hn) _ _ Htop Hp)
    as (q1 & Hq1 & _).
  exists q1. exact Hq1.
Defined.

Lemma interrupted_drain_resumes_witness :
  representable 64
    (add_all 64 [(priority.high, Say "A" Throw); (priority.low, Say "B" Return)]
             (fresh 64))
  ∧ execute_all 64 12
      (add_all 64 [(priority.high, Say "A" Throw); (priority.low, Say "B" Return)]
               (fresh 64))
    = Some (Thrown,
            {| handlers_ := [queued_handler.mk priority.low (size_max 64 - 2)
                               (Say "B" Return)];
               order_ := size_max 64 - 2 |},
            [Executed (queued_handler.mk priority.high (size_max 64 - 1) (Say "A" Throw));
             Said "A"])
  ∧ ∃ o q'' es',
      execute_all 64 4
        {| handlers_ := [queued_handler.mk priority.low (size_max 64 - 2)
                           (Say "B" Return)];
           order_ := size_max 64 - 2 |}
      = Some (o, q'', es').
Proof.
  assert (representable 64
            (add_all 64 [(priority.high, Say "A" Throw); (priority.low, Say "B" Return)]
                     (fresh 64))) as Hq.
  { vm_compute. split; [discriminate|reflexivity]. }
  assert (execute_all 64 12
            (add_all 64 [(priority.high, Say "A" Throw); (priority.low, Say "B" Return)]
                     (fresh 64))
          = Some (Thrown,
                  {| handlers_ := [queued_handler.mk priority.low (size_max 64 - 2)
                                     (Say "B" Return)];
                     order_ := size_max 64 - 2 |},
                  [Executed (queued_handler.mk priority.high (size_max 64 - 1)
                               (Say "A" Throw));
                   Said "A"])) as Hrun by reflexivity.
  split; [exact Hq|]. split; [exact Hrun|].
  destruct (proj2 (interrupted_drain_resumes 64 _ _ _ _ Hq Hrun) 4%nat)
    as (o & q'' & es' & Hrun' & _).
  { vm_compute. lia. }
  exists o, q'', es'. exact Hrun'.
Defined.

Lemma runs_move_counter_by_submissions_witness :
  representable 64
    (add 64 priority.low (Call_add priority.high Return Return) (fresh 64))
  ∧ execute_highest 64 4
      (add 64 priority.low (Call_add priority.high Return Return) (fresh 64))
    = Some (Returned true,
            {| handlers_ := [queued_handler.mk priority.high (size_max 64 - 2) Return];
               order_ := size_max 64 - 2 |},
            [Executed (queued_handler.mk priority.low (size_max 64 - 1)
                         (Call_add priority.high Return Return));
             Submitted (queued_handler.mk priority.high (size_max 64 - 2) Return)])
  ∧ size_max 64 - 2 = to_size_t 64 (size_max 64 - 1 - Z.of_nat 1).
Proof.
  assert (representable 64
            (add 64 priority.low (Call_add priority.high Return Return) (fresh 64)))
    as Hq.
  { vm_compute. split; [discriminate|reflexivity]. }
  assert (execute_highest 64 4
            (add 64 priority.low (Call_add priority.high Return Return) (fresh 64))
          = Some (Returned true,
                  {| handlers_ := [queued_handler.mk priority.high (size_max 64 - 2) Return];
                     order_ := size_max 64 - 2 |},
                  [Executed (queued_handler.mk priority.low (size_max 64 - 1)
                               (Call_add priority.high Return Return));
                   Submitted (queued_handler.mk priority.high (size_max 64 - 2) Return)]))
    as Hrun by reflexivity.
  split; [exact Hq|]. split; [exact Hrun|].
  exact (proj1 (proj1 (runs_move_counter_by_submissions 64 4 _ Hq) _ _ _ Hrun)).
Defined.

Lemma execute_highest_does_not_throw_witness :
  Forall (λ h, nothrow (queued_handler.function_ h) = true)
    (handlers_ (add 64 priority.low Return (fresh 64)))
  ∧ execute_highest 64 2 (add 64 priority.low Return (fresh 64))
    = Some (Returned false, {| handlers_ := []; order_ := size_max 64 - 1 |},
            [Executed (queued_handler.mk priority.low (size_max 64 - 1) Return)])
  ∧ ∃ b : bool, Returned false = Returned b.
Proof.
  assert (Forall (λ h, nothrow (queued_handler.function_ h) = true)
            (handlers_ (add 64 priority.low Return (fresh 64)))) as Hnt.
  { repeat constructor. }
  assert (execute_highest 64 2 (add 64 priority.low Return (fresh 64))
          = Some (Returned false, {| handlers_ := []; order_ := size_max 64 - 1 |},
                  [Executed (queued_handler.mk priority.low (size_max 64 - 1) Return)]))
    as Hrun by reflexivity.
  split; [exact Hnt|]. split; [exact Hrun|].
  exact (proj1 (execute_highest_does_not_throw 64 _ _ _ _ _ Hnt Hrun)).
Defined.

Lemma equal_executors_interchangeable_witness :
  executor_eq (mk_executor 1 priority.high) (mk_executor 1 priority.high) = true
  ∧ dispatch 64 (mk_executor 1 priority.high) Return (<[1%positive := fresh 64]> ∅)
    = dispatch 64 (mk_executor 1 priority.high) Return (<[1%positive := fresh 64]> ∅).
Proof.
  assert (executor_eq (mk_executor 1 priority.high) (mk_executor 1 priority.high) = true)
    as H by reflexivity.
  split; [exact H|].
  exact (proj1 (proj2 (proj2 (proj2 (proj2 (equal_executors_interchangeable 64))) _ _
                         Return (<[1%positive := fresh 64]> ∅) H))).
Defined.

Lemma submissions_to_distinct_queues_commute_witness :
  context_ (mk_executor 1 priority.high) ≠ context_ (mk_executor 2 priority.low)
  ∧ dispatch 64 (mk_executor 1 priority.high) Return
      (post 64 (mk_executor 2 priority.low) Throw
         (<[1%positive := fresh 64]> (<[2%positive := fresh 64]> ∅)))
    = post 64 (mk_executor 2 priority.low) Throw
        (dispatch 64 (mk_executor 1 priority.high) Return
           (<[1%positive := fresh 64]> (<[2%positive := fresh 64]> ∅))).
Proof.
  assert (context_ (mk_executor 1 priority.high) ≠ context_ (mk_executor 2 priority.low))
    as H by discriminate.
  split; [exact H|].
  exact (proj1 (submissions_to_distinct_queues_commute 64 _ _ Return Throw _) H).
Defined.

Lemma execute_highest_runs_exactly_one_witness :
  get_top_handler (add 64 priority.low (Call_add priority.high Return Throw) (fresh 64))
  = Some (queued_handler.mk priority.low (size_max 64 - 1)
            (Call_add priority.high Return Throw),
          {| handlers_ := []; order_ := size_max 64 - 1 |})
  ∧ reenters (Call_add priority.high Return Throw) = false
  ∧ execute_highest 64 4
      (add 64 priority.low (Call_add priority.high Return Throw) (fresh 64))
    = Some (Thrown,
            {| handlers_ := [queued_handler.mk priority.high (size_max 64 - 2) Return];
               order_ := size_max 64 - 2 |},
            [Executed (queued_handler.mk priority.low (size_max 64 - 1)
                         (Call_add priority.high Return Throw));
             Submitted (queued_handler.mk priority.high (size_max 64 - 2) Return)])
  ∧ executed
      [Executed (queued_handler.mk priority.low (size_max 64 - 1)
                   (Call_add priority.high Return Throw));
       Submitted (queued_handler.mk priority.high (size_max 64 - 2) Return)]
    = [queued_handler.mk priority.low (size_max 64 - 1)
         (Call_add priority.high Return Throw)].
Proof.
  assert (get_top_handler
            (add 64 priority.low (Call_add priority.high Return Throw) (fresh 64))
          = Some (queued_handler.mk priority.low (size_max 64 - 1)
                    (Call_add priority.high Return Throw),
                  {| handlers_ := []; order_ := size_max 64 - 1 |})) as Htop
    by reflexivity.
  assert (reenters (Call_add priority.high Return Throw) = false) as Hf by reflexivity.
  assert (execute_highest 64 4
            (add 64 priority.low (Call_add priority.high Return Throw) (fresh 64))
          = Some (Thrown,
                  {| handlers_ := [queued_handler.mk priority.high (size_max 64 - 2) Return];
                     order_ := size_max 64 - 2 |},
                  [Executed (queued_handler.mk priority.low (size_max 64 - 1)
                               (Call_add priority.high Return Throw));
                   Submitted (queued_handler.mk priority.high (size_max 64 - 2) Return)]))
    as Hrun by reflexivity.
  split; [exact Htop|]. split; [exact Hf|]. split; [exact Hrun|].
  exact (proj1 (execute_highest_runs_exactly_one 64 _ _ _ _ _ _ _ Htop Hf Hrun)).
Defined.
